(** * The partition manager of the kafkaconsumer package

    A shallow embedding of the [partitionManager] of package [kafkaconsumer]:
    the life cycle of one partition (claim it in Zookeeper, start the offset
    manager, start the sarama consumer, forward messages and errors, wait for
    processing, release) and the acknowledgement path.

    The external collaborators (kazoo, sarama, the tomb, timers, the channels
    of the consumer manager) are not part of the package.  Every blocking call
    and every [select] of the source is answered by a script: a list with one
    entry per loop iteration that says what the collaborator returned and which
    branch of the [select] became ready.  A function of the model returns
    [None] when its script ends while the Go loop would still be iterating
    (or blocked); it returns [Some] as soon as the Go function returns. *)

From Stdlib Require Import ZArith List Bool Lia String Sorted.
Import ListNotations.
Open Scope Z_scope.

(** ** Go values *)

(** [int64]: a mathematical integer in the range of the type, additions wrap. *)
Definition int64_min : Z := - 2 ^ 63.
Definition int64_max : Z := 2 ^ 63 - 1.
Definition is_int64 (z : Z) : Prop := int64_min <= z <= int64_max.
Definition wrap64 (z : Z) : Z := (z + 2 ^ 63) mod 2 ^ 64 - 2 ^ 63.
Definition add64 (a b : Z) : Z := wrap64 (a + b).

(** [time.Duration] counts nanoseconds. *)
Definition Duration := Z.
Definition Second : Duration := 1000000000.

(** The error values the source distinguishes.  [ErrAlreadyOwner key] is the
    value built by [fmt.Errorf] in [claimPartition]; [ErrOther] stands for any
    error of a collaborator that the source does not name.  A Go [error] that
    may be [nil] is an [option error]. *)
Inductive error : Type :=
| ErrStillAlive                      (* tomb.ErrStillAlive *)
| ErrDying                           (* tomb.ErrDying *)
| ErrOffsetOutOfRange                (* sarama.ErrOffsetOutOfRange *)
| ErrAlreadyOwner (key : string)
| ErrOther (code : Z).

Definition error_eqb (a b : error) : bool :=
  match a, b with
  | ErrStillAlive, ErrStillAlive => true
  | ErrDying, ErrDying => true
  | ErrOffsetOutOfRange, ErrOffsetOutOfRange => true
  | ErrAlreadyOwner k, ErrAlreadyOwner k' => String.eqb k k'
  | ErrOther c, ErrOther c' => Z.eqb c c'
  | _, _ => false
  end.

Definition goerr_eqb (a b : option error) : bool :=
  match a, b with
  | None, None => true
  | Some x, Some y => error_eqb x y
  | _, _ => false
  end.

(** sarama's symbolic offsets. *)
Definition OffsetNewest : Z := -1.
Definition OffsetOldest : Z := -2.

(** A call either returns or panics; the state reached when the panic is
    raised is kept. *)
Inductive panic : Type :=
| NilDereference
| CloseOfClosedChannel.

Inductive outcome (A : Type) : Type :=
| Returned (a : A)
| Panicked (p : panic) (a : A).
Arguments Returned {A} a.
Arguments Panicked {A} p a.

(** ** The tomb (gopkg.in/tomb.v1), as far as the source uses it *)

Module Tomb.
(** The reason slot holds [ErrStillAlive] until the first [Kill]. *)
Record t : Type := mk { reason : option error }.

Definition alive : t := mk (Some ErrStillAlive).

Definition Err (tb : t) : option error := reason tb.

Definition is_alive (tb : t) : bool := goerr_eqb (Err tb) (Some ErrStillAlive).

(** [Kill] records the first reason only; [Kill(ErrDying)] never replaces
    the reason. *)
Definition Kill (r : option error) (tb : t) : t :=
  if goerr_eqb r (Some ErrDying) then tb
  else if is_alive tb then mk r
  else tb.
End Tomb.

(** ** The partition manager *)

(** Handles of the collaborators are opaque identifiers. *)
Definition PartitionOffsetManager := nat.
Definition PartitionConsumer := nat.

Inductive chan_state : Type := ChanOpen | ChanClosed.

Record config : Type := {
  Offsets_Initial : Z;
  MaxProcessingTime : Duration
}.

(** What the manager reads from its parent and its partition. *)
Record consumerManager : Type := {
  cm_config : config;
  instance_ID : string
}.

Record partitionManager : Type := {
  parent : consumerManager;
  t : Tomb.t;
  partition_key : string;
  offsetManager : option PartitionOffsetManager;   (* nil until bound by run *)
  lastConsumedOffset : Z;
  processingDone : chan_state
}.

Definition set_t (tb : Tomb.t) (pm : partitionManager) : partitionManager :=
  {| parent := parent pm; t := tb; partition_key := partition_key pm;
     offsetManager := offsetManager pm;
     lastConsumedOffset := lastConsumedOffset pm;
     processingDone := processingDone pm |}.

Definition set_offsetManager (h : PartitionOffsetManager) (pm : partitionManager)
  : partitionManager :=
  {| parent := parent pm; t := t pm; partition_key := partition_key pm;
     offsetManager := Some h;
     lastConsumedOffset := lastConsumedOffset pm;
     processingDone := processingDone pm |}.

Definition set_lastConsumedOffset (o : Z) (pm : partitionManager)
  : partitionManager :=
  {| parent := parent pm; t := t pm; partition_key := partition_key pm;
     offsetManager := offsetManager pm;
     lastConsumedOffset := o;
     processingDone := processingDone pm |}.

Definition set_processingDone (c : chan_state) (pm : partitionManager)
  : partitionManager :=
  {| parent := parent pm; t := t pm; partition_key := partition_key pm;
     offsetManager := offsetManager pm;
     lastConsumedOffset := lastConsumedOffset pm;
     processingDone := c |}.

(** [interrupt]: [pm.t.Kill(nil)]. *)
Definition interrupt (pm : partitionManager) : partitionManager :=
  set_t (Tomb.Kill None (t pm)) pm.

(** ** Acknowledgement *)

(** The offset store keeps the [SetOffset] calls it received, oldest first. *)
Definition offset_store := list (PartitionOffsetManager * Z).

(** [close(ch)] panics on a channel that is closed already. *)
Definition close_chan (c : chan_state) : outcome chan_state :=
  match c with
  | ChanOpen => Returned ChanClosed
  | ChanClosed => Panicked CloseOfClosedChannel ChanClosed
  end.

(** [ack]: the call on the offset manager comes first and dereferences the
    handle; then the completion signal is closed when the tomb is no longer
    alive and the offset is the last consumed one. *)
Definition ack (offset : Z) (s : partitionManager * offset_store)
  : outcome (partitionManager * offset_store) :=
  let (pm, store) := s in
  match offsetManager pm with
  | None => Panicked NilDereference (pm, store)
  | Some h =>
      let store' := store ++ [(h, offset)] in
      if negb (Tomb.is_alive (t pm)) && (offset =? lastConsumedOffset pm)
      then match close_chan (processingDone pm) with
           | Returned c => Returned (set_processingDone c pm, store')
           | Panicked p _ => Panicked p (pm, store')
           end
      else Returned (pm, store')
  end.

(** A sequence of [ack] calls; the first panic ends it. *)
Fixpoint acks (offsets : list Z) (s : partitionManager * offset_store)
  : outcome (partitionManager * offset_store) :=
  match offsets with
  | [] => Returned s
  | o :: rest =>
      match ack o s with
      | Returned s' => acks rest s'
      | Panicked p s' => Panicked p s'
      end
  end.

(** ** What the manager does, as a trace *)

Record ConsumerMessage : Type := { msg_Offset : Z }.

Inductive event : Type :=
(* claimPartition *)
| EWatchPartitionOwner (owner : option string) (err : option error)
| EClaimPartition (err : option error)
(* a branch of a select was taken *)
| EDying                                  (* <-pm.t.Dying() *)
| ETimer (d : Duration)                   (* <-time.After(d) *)
| EOwnerChanged                           (* <-changed *)
(* offset manager *)
| EManagePartition (err : option error)
| EBindOffsetManager (h : PartitionOffsetManager)
| EInitialOffset (committed : Z)
(* consumer *)
| EConsumePartition (offset : Z) (err : option error)
(* dispatch loop *)
| EMessage (m : ConsumerMessage)          (* msg := <-pc.Messages() *)
| EForwardMessage (m : ConsumerMessage)   (* pm.parent.messages <- msg *)
| EStoreLastConsumed (o : Z)              (* atomic.StoreInt64 *)
| EError (e : error)                      (* err := <-...Errors() *)
| EForwardError (e : error)               (* pm.parent.errors <- err *)
(* shutdown *)
| EClosePartitionConsumer (pc : PartitionConsumer) (err : option error)
| EDrainOffsets (processed consumed : Z)
| EDrainSignalled (waited : Duration)
| EDrainTimeout (waited : Duration)
| ECloseOffsetManager (h : PartitionOffsetManager)
| EReleasePartition (err : option error)
| EKill (err : option error)
| EPanic (p : panic)
| EDone.

Definition trace := list event.

(** Which branch of a two-way [select] with the dying channel became ready. *)
Inductive wake : Type := WakeOther | WakeDying.

(** A receive from [pm.t.Dying()] succeeds only after a [Kill]; when the model
    still holds a live tomb, that [Kill] was the [interrupt] of the owner. *)
Definition observe_dying (pm : partitionManager) : partitionManager := interrupt pm.

(** *** claimPartition *)

(** One iteration: the answer of [WatchPartitionOwner] (owner pointer and
    error), the branch of the [select] that follows when there is one, and the
    answer of [ClaimPartition] when it is called. *)
Record claim_step : Type := {
  cs_owner : option string;
  cs_err : option error;
  cs_wake : wake;
  cs_claim : option error
}.

Fixpoint claimPartition (pm : partitionManager) (script : list claim_step)
  : option (option error * partitionManager * trace) :=
  match script with
  | [] => None
  | s :: rest =>
      let read := EWatchPartitionOwner (cs_owner s) (cs_err s) in
      match cs_err s with
      | Some _ =>
          match cs_wake s with
          | WakeOther =>
              match claimPartition pm rest with
              | Some (r, pm', tr) => Some (r, pm', read :: ETimer (1 * Second) :: tr)
              | None => None
              end
          | WakeDying => Some (Some ErrDying, observe_dying pm, [read; EDying])
          end
      | None =>
          match cs_owner s with
          | Some owner =>
              if String.eqb owner (instance_ID (parent pm))
              then Some (Some (ErrAlreadyOwner (partition_key pm)), pm, [read])
              else
                match cs_wake s with
                | WakeOther =>
                    match claimPartition pm rest with
                    | Some (r, pm', tr) => Some (r, pm', read :: EOwnerChanged :: tr)
                    | None => None
                    end
                | WakeDying => Some (Some ErrDying, observe_dying pm, [read; EDying])
                end
          | None =>
              match cs_claim s with
              | Some e =>
                  match claimPartition pm rest with
                  | Some (r, pm', tr) =>
                      Some (r, pm', read :: EClaimPartition (Some e) :: tr)
                  | None => None
                  end
              | None => Some (None, pm, [read; EClaimPartition None])
              end
          end
      end
  end.

(** *** startPartitionOffsetManager *)

Record om_step : Type := {
  om_handle : PartitionOffsetManager;
  om_err : option error;
  om_wake : wake
}.

Fixpoint startPartitionOffsetManager (pm : partitionManager) (script : list om_step)
  : option ((option PartitionOffsetManager * option error) * partitionManager * trace) :=
  match script with
  | [] => None
  | s :: rest =>
      let call := EManagePartition (om_err s) in
      match om_err s with
      | Some _ =>
          match om_wake s with
          | WakeDying => Some ((None, Some ErrDying), observe_dying pm, [call; EDying])
          | WakeOther =>
              match startPartitionOffsetManager pm rest with
              | Some (r, pm', tr) => Some (r, pm', call :: ETimer (1 * Second) :: tr)
              | None => None
              end
          end
      | None => Some ((Some (om_handle s), None), pm, [call])
      end
  end.

(** *** startPartitionConsumer *)

Record pc_step : Type := {
  pc_handle : PartitionConsumer;
  pc_err : option error;
  pc_wake : wake
}.

Fixpoint startPartitionConsumer (pm : partitionManager) (initialOffset : Z)
    (script : list pc_step)
  : option ((option PartitionConsumer * option error) * partitionManager * trace) :=
  match script with
  | [] => None
  | s :: rest =>
      let call := EConsumePartition initialOffset (pc_err s) in
      match pc_err s with
      | None => Some ((Some (pc_handle s), None), pm, [call])
      | Some ErrOffsetOutOfRange =>
          let initialOffset := Offsets_Initial (cm_config (parent pm)) in
          match startPartitionConsumer pm initialOffset rest with
          | Some (r, pm', tr) => Some (r, pm', call :: tr)
          | None => None
          end
      | Some _ =>
          match pc_wake s with
          | WakeDying => Some ((None, Some ErrDying), observe_dying pm, [call; EDying])
          | WakeOther =>
              match startPartitionConsumer pm initialOffset rest with
              | Some (r, pm', tr) => Some (r, pm', call :: ETimer (1 * Second) :: tr)
              | None => None
              end
          end
      end
  end.

(** *** The dispatch loop of run *)

(** The inner select of a forward: the send went through, or dying came first. *)
Inductive forward : Type := Forwarded | ForwardDying.

Inductive loop_step : Type :=
| LoopDying
| LoopMessage (m : ConsumerMessage) (f : forward)
| LoopOffsetManagerError (e : error) (f : forward)
| LoopConsumerError (e : error) (f : forward).

Fixpoint dispatch (pm : partitionManager) (script : list loop_step)
  : option (partitionManager * trace) :=
  match script with
  | [] => None
  | LoopDying :: _ => Some (observe_dying pm, [EDying])
  | LoopMessage m Forwarded :: rest =>
      match dispatch (set_lastConsumedOffset (msg_Offset m) pm) rest with
      | Some (pm', tr) =>
          Some (pm', EMessage m :: EForwardMessage m
                       :: EStoreLastConsumed (msg_Offset m) :: tr)
      | None => None
      end
  | LoopMessage m ForwardDying :: _ => Some (observe_dying pm, [EMessage m; EDying])
  | LoopOffsetManagerError e Forwarded :: rest
  | LoopConsumerError e Forwarded :: rest =>
      match dispatch pm rest with
      | Some (pm', tr) => Some (pm', EError e :: EForwardError e :: tr)
      | None => None
      end
  | LoopOffsetManagerError e ForwardDying :: _
  | LoopConsumerError e ForwardDying :: _ =>
      Some (observe_dying pm, [EError e; EDying])
  end.

(** *** waitForProcessing *)

(** The answer of the offset manager to [Offset()], the moment at which
    [processingDone] becomes readable counted from the start of the [select]
    ([None]: never), and the branch the runtime picks when the signal and the
    timer are ready at the same instant. *)
Record drain_step : Type := {
  ds_processed : Z;
  ds_done_after : option Duration;
  ds_signal_wins_tie : bool
}.

(** [select] between [<-pm.processingDone] and [<-time.After(timeout)]: the
    branch that is ready first is taken, at the moment it is ready.  A timer
    with a negative duration fires at once. *)
Definition select_done_or_timeout (done_after : option Duration) (tie : bool)
    (timeout : Duration) : event :=
  let fire := Z.max 0 timeout in
  match done_after with
  | None => EDrainTimeout fire
  | Some d =>
      let d := Z.max 0 d in
      if d <? fire then EDrainSignalled d
      else if fire <? d then EDrainTimeout fire
      else if tie then EDrainSignalled d else EDrainTimeout fire
  end.

Definition waitForProcessing (pm : partitionManager) (d : drain_step)
  : outcome trace :=
  match offsetManager pm with
  | None => Panicked NilDereference []
  | Some _ =>
      let lastProcessedOffset := ds_processed d in
      let lastConsumed := lastConsumedOffset pm in
      let read := EDrainOffsets lastProcessedOffset lastConsumed in
      if lastConsumed >=? 0 then
        if lastConsumed >? lastProcessedOffset then
          let done_after :=
            match processingDone pm with
            | ChanClosed => Some 0
            | ChanOpen => ds_done_after d
            end in
          Returned [read;
                    select_done_or_timeout done_after (ds_signal_wins_tie d)
                      (MaxProcessingTime (cm_config (parent pm)))]
        else Returned [read]
      else Returned [read]
  end.

(** *** run *)

(** The offset at which consumption starts, from the committed offset that
    [offsetManager.Offset()] returned. *)
Definition initialOffset (cfg : config) (committed : Z) : Z :=
  if committed <? 0 then Offsets_Initial cfg else add64 committed 1.

Record run_script : Type := {
  rs_claim : list claim_step;
  rs_offsetManager : list om_step;
  rs_committed : Z;
  rs_consumer : list pc_step;
  rs_loop : list loop_step;
  rs_close_consumer : option error;
  rs_drain : drain_step;
  rs_release : option error
}.

(** The calls that [defer] has registered; the head is the latest one. *)
Inductive deferred : Type :=
| DDone
| DReleasePartition
| DCloseOffsetManager (h : PartitionOffsetManager)
| DWaitForProcessing
| DClosePartitionConsumer (pc : PartitionConsumer).

Definition kill (err : option error) (pm : partitionManager) : partitionManager :=
  set_t (Tomb.Kill err (t pm)) pm.

(** The body of [run] up to its [return], with the deferred calls it has
    registered by then.  A helper that reports success without a handle cannot
    occur (see the lemmas on the helpers); the body then stops with the nil
    dereference Go raises on the first use of the handle. *)
Definition run_body (pm : partitionManager) (rs : run_script)
  : option (partitionManager * trace * list deferred) :=
  let defers := [DDone] in
  match claimPartition pm (rs_claim rs) with
  | None => None
  | Some (Some err, pm, tr1) =>
      Some (kill (Some err) pm, tr1 ++ [EKill (Some err)], defers)
  | Some (None, pm, tr1) =>
      let defers := DReleasePartition :: defers in
      match startPartitionOffsetManager pm (rs_offsetManager rs) with
      | None => None
      | Some ((_, Some err), pm, tr2) =>
          Some (kill (Some err) pm, tr1 ++ tr2 ++ [EKill (Some err)], defers)
      | Some ((None, None), pm, tr2) =>
          Some (pm, tr1 ++ tr2 ++ [EPanic NilDereference], defers)
      | Some ((Some h, None), pm, tr2) =>
          let pm := set_offsetManager h pm in
          let defers := DCloseOffsetManager h :: defers in
          let committed := rs_committed rs in
          let start := initialOffset (cm_config (parent pm)) committed in
          let tr3 := [EBindOffsetManager h; EInitialOffset committed] in
          let defers := DWaitForProcessing :: defers in
          match startPartitionConsumer pm start (rs_consumer rs) with
          | None => None
          | Some ((_, Some err), pm, tr4) =>
              Some (kill (Some err) pm,
                    tr1 ++ tr2 ++ tr3 ++ tr4 ++ [EKill (Some err)], defers)
          | Some ((None, None), pm, tr4) =>
              Some (pm, tr1 ++ tr2 ++ tr3 ++ tr4 ++ [EPanic NilDereference], defers)
          | Some ((Some pc, None), pm, tr4) =>
              let defers := DClosePartitionConsumer pc :: defers in
              match dispatch pm (rs_loop rs) with
              | None => None
              | Some (pm, tr5) => Some (pm, tr1 ++ tr2 ++ tr3 ++ tr4 ++ tr5, defers)
              end
          end
      end
  end.

Definition run_deferred_call (pm : partitionManager) (rs : run_script)
    (d : deferred) : trace :=
  match d with
  | DDone => [EDone]
  | DReleasePartition => [EReleasePartition (rs_release rs)]
  | DCloseOffsetManager h => [ECloseOffsetManager h]
  | DWaitForProcessing =>
      match waitForProcessing pm (rs_drain rs) with
      | Returned tr => tr
      | Panicked p tr => tr ++ [EPanic p]
      end
  | DClosePartitionConsumer pc => [EClosePartitionConsumer pc (rs_close_consumer rs)]
  end.

(** Deferred calls run last registered first. *)
Definition run_deferred (pm : partitionManager) (rs : run_script)
    (defers : list deferred) : trace :=
  flat_map (run_deferred_call pm rs) defers.

Definition run (pm : partitionManager) (rs : run_script)
  : option (partitionManager * trace) :=
  match run_body pm rs with
  | None => None
  | Some (pm', tr, defers) => Some (pm', tr ++ run_deferred pm' rs defers)
  end.

(** Modelled from the spec: the constructor of the manager belongs to the
    consumer manager, which is not among the sources.  A new manager has a
    live tomb, no offset manager bound, an open completion signal and the
    sentinel [none] as last consumed offset. *)
Definition new_partitionManager (cm : consumerManager) (key : string) (none : Z)
  : partitionManager :=
  {| parent := cm; t := Tomb.alive; partition_key := key;
     offsetManager := None; lastConsumedOffset := none;
     processingDone := ChanOpen |}.

(** * The vocabulary of the properties *)

(** ** The paths of run *)

(** What a helper may change in the manager: nothing but the tomb. *)
Definition same_fields (pm pm' : partitionManager) : Prop :=
  parent pm' = parent pm
  /\ partition_key pm' = partition_key pm
  /\ offsetManager pm' = offsetManager pm
  /\ lastConsumedOffset pm' = lastConsumedOffset pm
  /\ processingDone pm' = processingDone pm.

(** What the deferred [waitForProcessing] adds to the trace. *)
Definition drain_trace (pm : partitionManager) (rs : run_script) : trace :=
  run_deferred_call pm rs DWaitForProcessing.

(** The four ways in which [run] returns: the claim failed or was interrupted,
    the start of the offset manager was interrupted, the start of the consumer
    was interrupted, the dispatch loop was interrupted. *)
Inductive run_path (pm : partitionManager) (rs : run_script)
  : partitionManager -> trace -> Prop :=
| RunNotClaimed err pm1 tr1 :
    claimPartition pm (rs_claim rs) = Some (Some err, pm1, tr1) ->
    run_path pm rs (kill (Some err) pm1)
      (tr1 ++ [EKill (Some err)] ++ [EDone])
| RunNoOffsetManager pm1 tr1 pm2 tr2 :
    claimPartition pm (rs_claim rs) = Some (None, pm1, tr1) ->
    startPartitionOffsetManager pm1 (rs_offsetManager rs)
    = Some ((None, Some ErrDying), pm2, tr2) ->
    run_path pm rs (kill (Some ErrDying) pm2)
      (tr1 ++ tr2 ++ [EKill (Some ErrDying)]
           ++ [EReleasePartition (rs_release rs); EDone])
| RunNoConsumer pm1 tr1 h pm2 tr2 pm4 tr4 :
    claimPartition pm (rs_claim rs) = Some (None, pm1, tr1) ->
    startPartitionOffsetManager pm1 (rs_offsetManager rs)
    = Some ((Some h, None), pm2, tr2) ->
    startPartitionConsumer (set_offsetManager h pm2)
      (initialOffset (cm_config (parent pm2)) (rs_committed rs)) (rs_consumer rs)
    = Some ((None, Some ErrDying), pm4, tr4) ->
    run_path pm rs (kill (Some ErrDying) pm4)
      (tr1 ++ tr2 ++ [EBindOffsetManager h; EInitialOffset (rs_committed rs)]
           ++ tr4 ++ [EKill (Some ErrDying)]
           ++ drain_trace (kill (Some ErrDying) pm4) rs
           ++ [ECloseOffsetManager h; EReleasePartition (rs_release rs); EDone])
| RunConsumed pm1 tr1 h pm2 tr2 pc pm4 tr4 pm5 tr5 :
    claimPartition pm (rs_claim rs) = Some (None, pm1, tr1) ->
    startPartitionOffsetManager pm1 (rs_offsetManager rs)
    = Some ((Some h, None), pm2, tr2) ->
    startPartitionConsumer (set_offsetManager h pm2)
      (initialOffset (cm_config (parent pm2)) (rs_committed rs)) (rs_consumer rs)
    = Some ((Some pc, None), pm4, tr4) ->
    dispatch pm4 (rs_loop rs) = Some (pm5, tr5) ->
    run_path pm rs pm5
      (tr1 ++ tr2 ++ [EBindOffsetManager h; EInitialOffset (rs_committed rs)]
           ++ tr4 ++ tr5
           ++ [EClosePartitionConsumer pc (rs_close_consumer rs)]
           ++ drain_trace pm5 rs
           ++ [ECloseOffsetManager h; EReleasePartition (rs_release rs); EDone]).

(** ** Resources: the claim, the offset manager, the partition consumer *)

(** The three resources of a manager. *)
Inductive resource : Type := Claim | OffsetStore | Consumer.

Definition resource_eqb (a b : resource) : bool :=
  match a, b with
  | Claim, Claim | OffsetStore, OffsetStore | Consumer, Consumer => true
  | _, _ => false
  end.

(** The calls that acquire a resource are the ones that return a nil error. *)
Definition acquired (e : event) : option resource :=
  match e with
  | EClaimPartition None => Some Claim
  | EManagePartition None => Some OffsetStore
  | EConsumePartition _ None => Some Consumer
  | _ => None
  end.

(** The calls that give a resource back. *)
Definition released (e : event) : option resource :=
  match e with
  | EReleasePartition _ => Some Claim
  | ECloseOffsetManager _ => Some OffsetStore
  | EClosePartitionConsumer _ _ => Some Consumer
  | _ => None
  end.

Definition is_resource (r : resource) (o : option resource) : bool :=
  match o with
  | Some r' => resource_eqb r r'
  | None => false
  end.

(** [e] acquires, or releases, the resource [r]. *)
Definition acquires (r : resource) (e : event) : bool := is_resource r (acquired e).

Definition releases (r : resource) (e : event) : bool := is_resource r (released e).

(** The number of events of a trace that satisfy [p]. *)
Definition count (p : event -> bool) (tr : trace) : nat := List.length (filter p tr).

(** The life of a resource along a trace.  Acquiring what is held or was held,
    and releasing what is not held, are not steps of it. *)
Inductive rstate : Type := Fresh | Held | Released.

(** The steps of that life. *)
Definition after_acquire (s : rstate) : option rstate :=
  match s with Fresh => Some Held | _ => None end.

Definition after_release (s : rstate) : option rstate :=
  match s with Held => Some Released | _ => None end.

Definition lifecycle_step (r : resource) (s : rstate) (e : event) : option rstate :=
  if acquires r e then after_acquire s
  else if releases r e then after_release s
  else Some s.

Fixpoint lifecycle (r : resource) (s : rstate) (tr : trace) : option rstate :=
  match tr with
  | [] => Some s
  | e :: tr' =>
      match lifecycle_step r s e with
      | Some s' => lifecycle r s' tr'
      | None => None
      end
  end.

(** The acquisitions and releases that led to a state. *)
Definition acquisitions (s : rstate) : nat :=
  match s with Fresh => 0 | _ => 1 end.

Definition releases_so_far (s : rstate) : nat :=
  match s with Released => 1 | _ => 0 end.

(** An event that neither acquires nor releases. *)
Definition inert (e : event) : Prop := acquired e = None /\ released e = None.

(** ** Claiming *)

(** The iterations of [claimPartition] that end in [continue]: a failed read
    followed by the timer, another owner followed by the watch, a failed
    claim. *)
Definition continues (pm : partitionManager) (s : claim_step) : bool :=
  match cs_err s with
  | Some _ => match cs_wake s with WakeOther => true | WakeDying => false end
  | None =>
      match cs_owner s with
      | Some owner =>
          if String.eqb owner (instance_ID (parent pm)) then false
          else match cs_wake s with WakeOther => true | WakeDying => false end
      | None => match cs_claim s with Some _ => true | None => false end
      end
  end.

(** ** Retries of the startup helpers *)

(** The error of a failed attempt to start the offset manager or the
    consumer. *)
Definition failed_attempt (e : event) : option error :=
  match e with
  | EManagePartition (Some err) => Some err
  | EConsumePartition _ (Some err) => Some err
  | _ => None
  end.

(** What follows a failed attempt: a wait of one second that the dying channel
    may cut short. *)
Definition waits_one_second (tr : trace) : bool :=
  match tr with
  | ETimer d :: _ => d =? 1 * Second
  | EDying :: _ => true
  | _ => false
  end.

(** Every failed attempt of the trace is followed by that wait. *)
Fixpoint delayed_retries (tr : trace) : bool :=
  match tr with
  | [] => true
  | e :: tr' =>
      match failed_attempt e with
      | Some _ => waits_one_second tr' && delayed_retries tr'
      | None => delayed_retries tr'
      end
  end.

(** The next event is an attempt at the offset [initial]. *)
Definition retries_at (initial : Z) (tr : trace) : bool :=
  match tr with
  | EConsumePartition o _ :: _ => o =? initial
  | _ => false
  end.

(** The same, except that after "offset out of range" the next attempt follows
    at once, at the configured initial offset. *)
Fixpoint delayed_retries_but_out_of_range (initial : Z) (tr : trace) : bool :=
  match tr with
  | [] => true
  | e :: tr' =>
      match failed_attempt e with
      | Some ErrOffsetOutOfRange =>
          retries_at initial tr' && delayed_retries_but_out_of_range initial tr'
      | Some _ => waits_one_second tr' && delayed_retries_but_out_of_range initial tr'
      | None => delayed_retries_but_out_of_range initial tr'
      end
  end.

(** The steps on which the helpers return. *)
Definition om_returns (s : om_step) : bool :=
  match om_err s, om_wake s with
  | None, _ => true
  | Some _, WakeDying => true
  | Some _, WakeOther => false
  end.

Definition pc_returns (s : pc_step) : bool :=
  match pc_err s, pc_wake s with
  | None, _ => true
  | Some ErrOffsetOutOfRange, _ => false
  | Some _, WakeDying => true
  | Some _, WakeOther => false
  end.

(** An attempt answered "offset out of range". *)
Definition is_out_of_range (e : event) : bool :=
  match e with
  | EConsumePartition _ (Some ErrOffsetOutOfRange) => true
  | _ => false
  end.

(** An attempt at the offset [initial] answered "offset out of range". *)
Definition out_of_range_at (initial : Z) (e : event) : bool :=
  match e with
  | EConsumePartition o (Some ErrOffsetOutOfRange) => o =? initial
  | _ => false
  end.

(** The number of times the starting offset was replaced by the configured
    initial offset: once for every "offset out of range" answer. *)
Definition fallbacks (tr : trace) : nat := count is_out_of_range tr.

(** Every "offset out of range" answer is followed at once, with no wait in
    between, by an attempt at the initial offset. *)
Fixpoint falls_back_at_once (initial : Z) (tr : trace) : bool :=
  match tr with
  | [] => true
  | e :: tr' =>
      (if is_out_of_range e then retries_at initial tr' else true)
      && falls_back_at_once initial tr'
  end.

(** ** The order of the steps of run *)

(** The position of a step in the body of [run] and in its deferred calls.
    The consumer is closed by the call deferred last, so before the wait for
    processing; the offset manager and the claim are released after it.
    Waits, interruptions and kills occur at several positions and have none of
    their own. *)
Definition rank (e : event) : option nat :=
  match e with
  | EWatchPartitionOwner _ _ | EClaimPartition _ | EOwnerChanged => Some 0%nat
  | EManagePartition _ | EBindOffsetManager _ | EInitialOffset _ => Some 1%nat
  | EConsumePartition _ _ => Some 2%nat
  | EMessage _ | EForwardMessage _ | EStoreLastConsumed _
  | EError _ | EForwardError _ => Some 3%nat
  | EClosePartitionConsumer _ _ => Some 4%nat
  | EDrainOffsets _ _ | EDrainSignalled _ | EDrainTimeout _ => Some 5%nat
  | ECloseOffsetManager _ => Some 6%nat
  | EReleasePartition _ => Some 7%nat
  | EDone => Some 8%nat
  | EDying | ETimer _ | EKill _ | EPanic _ => None
  end.

(** The positions of the steps of a trace, in order. *)
Definition ranks (tr : trace) : list nat :=
  flat_map (fun e => match rank e with Some k => [k] | None => [] end) tr.

(** All the steps of the trace that have a position have position [k]. *)
Definition ranked (k : nat) (e : event) : Prop :=
  rank e = None \/ rank e = Some k.

(** The positions of the trace increase, and none is below [k]. *)
Definition ordered_from (k : nat) (tr : trace) : Prop :=
  StronglySorted le (ranks tr) /\ Forall (le k) (ranks tr).

(** The states of the specification; closing the consumer, closing the offset
    manager and releasing the claim are the actions of [Releasing]. *)
Inductive state : Type :=
| Claiming | OffsetManagerStarting | ConsumerStarting | Consuming
| Draining | Releasing | Done.

(** The place of a state in the sequence of the specification. *)
Definition state_index (s : state) : nat :=
  match s with
  | Claiming => 0 | OffsetManagerStarting => 1 | ConsumerStarting => 2
  | Consuming => 3 | Draining => 4 | Releasing => 5 | Done => 6
  end.

(** The state to which the specification assigns a step. *)
Definition state_of (e : event) : option state :=
  match e with
  | EWatchPartitionOwner _ _ | EClaimPartition _ | EOwnerChanged => Some Claiming
  | EManagePartition _ | EBindOffsetManager _ | EInitialOffset _ =>
      Some OffsetManagerStarting
  | EConsumePartition _ _ => Some ConsumerStarting
  | EMessage _ | EForwardMessage _ | EStoreLastConsumed _
  | EError _ | EForwardError _ => Some Consuming
  | EDrainOffsets _ _ | EDrainSignalled _ | EDrainTimeout _ => Some Draining
  | EClosePartitionConsumer _ _ | ECloseOffsetManager _ | EReleasePartition _ =>
      Some Releasing
  | EDone => Some Done
  | EDying | ETimer _ | EKill _ | EPanic _ => None
  end.

(** The states of the steps of a trace, in order. *)
Definition states (tr : trace) : list state :=
  flat_map (fun e => match state_of e with Some s => [s] | None => [] end) tr.

(** ** The last consumed offset, the bound offset manager, the starting offset *)

(** The offsets stored in [lastConsumedOffset], in order. *)
Definition stores (tr : trace) : list Z :=
  flat_map (fun e => match e with EStoreLastConsumed o => [o] | _ => [] end) tr.

(** The messages sent to the consumer manager, in order. *)
Definition forwarded (tr : trace) : list ConsumerMessage :=
  flat_map (fun e => match e with EForwardMessage m => [m] | _ => [] end) tr.

(** The messages the consumer hands to the dispatch loop. *)
Definition delivered (script : list loop_step) : list ConsumerMessage :=
  flat_map (fun s => match s with LoopMessage m _ => [m] | _ => [] end) script.

(** The effect of a step of [run] on the manager. *)
Definition apply_event (pm : partitionManager) (e : event) : partitionManager :=
  match e with
  | EDying => observe_dying pm
  | EKill err => kill err pm
  | EBindOffsetManager h => set_offsetManager h pm
  | EStoreLastConsumed o => set_lastConsumedOffset o pm
  | _ => pm
  end.

(** The manager as another goroutine finds it after the steps [tr] of [run]. *)
Definition replay (tr : trace) (pm : partitionManager) : partitionManager :=
  fold_left apply_event tr pm.

(** Any event but the assignment of [pm.offsetManager]. *)
Definition not_bind (e : event) : Prop :=
  match e with EBindOffsetManager _ => False | _ => True end.

(** The offset of the first [ConsumePartition] call of a trace. *)
Fixpoint first_attempt (tr : trace) : option Z :=
  match tr with
  | [] => None
  | EConsumePartition o _ :: _ => Some o
  | _ :: tr' => first_attempt tr'
  end.

(** ** Sample managers and scripts *)

(** The parent of the sample managers: initial offset "newest", a minute to
    finish processing. *)
Definition cm_newest : consumerManager :=
  {| cm_config := {| Offsets_Initial := OffsetNewest;
                     MaxProcessingTime := 60 * Second |};
     instance_ID := "instance-1" |}.

(** A manager that its owner just created. *)
Definition pm_new : partitionManager :=
  new_partitionManager cm_newest "topic/0" (-1).

(** A manager that is shutting down after it forwarded offset 12. *)
Definition pm_draining_12 : partitionManager :=
  {| parent := cm_newest; t := Tomb.Kill None Tomb.alive;
     partition_key := "topic/0"; offsetManager := Some 7%nat;
     lastConsumedOffset := 12; processingDone := ChanOpen |}.

(** Offset 11 is committed and [processingDone] is never closed. *)
Definition drain_never_acked : drain_step :=
  {| ds_processed := 11; ds_done_after := None; ds_signal_wins_tie := true |}.

(** Nobody owns the partition and the claim succeeds. *)
Definition step_claimed : claim_step :=
  {| cs_owner := None; cs_err := None; cs_wake := WakeOther; cs_claim := None |}.

(** The partition is owned by [owner]. *)
Definition step_owned_by (owner : string) (w : wake) : claim_step :=
  {| cs_owner := Some owner; cs_err := None; cs_wake := w; cs_claim := None |}.

(** The consumer answers "offset out of range". *)
Definition step_out_of_range : pc_step :=
  {| pc_handle := 0%nat; pc_err := Some ErrOffsetOutOfRange; pc_wake := WakeOther |}.

(** The consumer starts. *)
Definition step_consumer (pc : PartitionConsumer) : pc_step :=
  {| pc_handle := pc; pc_err := None; pc_wake := WakeOther |}.

(** The consumer answers with some other error. *)
Definition step_failing (code : Z) (w : wake) : pc_step :=
  {| pc_handle := 0%nat; pc_err := Some (ErrOther code); pc_wake := w |}.

(** A message with offset [o] is received and forwarded. *)
Definition step_message (o : Z) : loop_step :=
  LoopMessage {| msg_Offset := o |} Forwarded.

(** The attempts that [n] answers "offset out of range" in a row cause, from
    the starting offset [start]. *)
Definition out_of_range_attempts (initial start : Z) (n : nat) : trace :=
  match n with
  | O => []
  | S k => EConsumePartition start (Some ErrOffsetOutOfRange)
           :: repeat (EConsumePartition initial (Some ErrOffsetOutOfRange)) k
  end.

(** The offset of the attempt that follows them. *)
Definition offset_after (initial start : Z) (n : nat) : Z :=
  match n with O => start | S _ => initial end.

(** The manager claims, starts after committed offset 41, forwards offset 42
    and is then interrupted; nobody acknowledges offset 42. *)
Definition rs_consumed : run_script :=
  {| rs_claim := [step_claimed];
     rs_offsetManager := [{| om_handle := 7%nat; om_err := None; om_wake := WakeOther |}];
     rs_committed := 41;
     rs_consumer := [{| pc_handle := 9%nat; pc_err := None; pc_wake := WakeOther |}];
     rs_loop := [LoopMessage {| msg_Offset := 42 |} Forwarded; LoopDying];
     rs_close_consumer := None;
     rs_drain := {| ds_processed := 41; ds_done_after := None;
                    ds_signal_wins_tie := true |};
     rs_release := None |}.

(** The manager forwards offsets 10, 11 and 12 and is then interrupted; offset
    11 is committed and offset 12 is acknowledged two seconds later. *)
Definition rs_three_messages : run_script :=
  {| rs_claim := [step_claimed];
     rs_offsetManager := [{| om_handle := 7%nat; om_err := None; om_wake := WakeOther |}];
     rs_committed := 9;
     rs_consumer := [step_consumer 9%nat];
     rs_loop := [step_message 10; step_message 11; step_message 12; LoopDying];
     rs_close_consumer := None;
     rs_drain := {| ds_processed := 11; ds_done_after := Some (2 * Second);
                    ds_signal_wins_tie := true |};
     rs_release := None |}.

(** The partition is owned by another instance and the manager is interrupted
    while it waits for the owner to change. *)
Definition rs_interrupted_claiming : run_script :=
  {| rs_claim := [step_owned_by "instance-2" WakeDying];
     rs_offsetManager := []; rs_committed := -1; rs_consumer := [];
     rs_loop := []; rs_close_consumer := None;
     rs_drain := drain_never_acked; rs_release := None |}.

(** The manager claims the partition and is interrupted while the offset
    manager fails to start. *)
Definition rs_interrupted_starting : run_script :=
  {| rs_claim := [step_claimed];
     rs_offsetManager := [{| om_handle := 0%nat; om_err := Some (ErrOther 1);
                             om_wake := WakeDying |}];
     rs_committed := -1; rs_consumer := [];
     rs_loop := []; rs_close_consumer := None;
     rs_drain := drain_never_acked; rs_release := None |}.

(** A manager that is shutting down after it forwarded offset 11. *)
Definition pm_draining_11 : partitionManager :=
  set_lastConsumedOffset 11 pm_draining_12.

(** ** More on claiming *)

(** A successful call of [ClaimPartition]. *)
Definition is_successful_claim (e : event) : bool :=
  match e with EClaimPartition None => true | _ => false end.

(** Every call of [ClaimPartition] comes right after a read that succeeded and
    found no owner; [prev] is the event before the trace. *)
Fixpoint claims_after_free_read (prev : option event) (tr : trace) : bool :=
  match tr with
  | [] => true
  | e :: tr' =>
      match e with
      | EClaimPartition _ =>
          match prev with
          | Some (EWatchPartitionOwner None None) =>
              claims_after_free_read (Some e) tr'
          | _ => false
          end
      | _ => claims_after_free_read (Some e) tr'
      end
  end.

(** The next event is a read of the owner. *)
Definition reads_next (tr : trace) : bool :=
  match tr with EWatchPartitionOwner _ _ :: _ => true | _ => false end.

(** The trace ends here. *)
Definition ends (tr : trace) : bool :=
  match tr with [] => true | _ => false end.

(** What may follow each step of [claimPartition]: a failed read is followed
    by the wait of one second, a read that finds this instance ends the trace,
    a read that finds another owner is followed by the watch or by dying, a
    read that finds no owner by the claim; the loop reads again right after a
    wait, a change of owner or a failed claim; a successful claim and dying
    end the trace. *)
Definition claim_step_allowed (self : string) (e : event) (tr' : trace) : bool :=
  match e with
  | EWatchPartitionOwner _ (Some _) => waits_one_second tr'
  | EWatchPartitionOwner (Some owner) None =>
      if String.eqb owner self then ends tr'
      else match tr' with
           | EOwnerChanged :: _ | EDying :: _ => true
           | _ => false
           end
  | EWatchPartitionOwner None None =>
      match tr' with EClaimPartition _ :: _ => true | _ => false end
  | EClaimPartition (Some _) | ETimer _ | EOwnerChanged => reads_next tr'
  | EClaimPartition None | EDying => ends tr'
  | _ => false
  end.

Fixpoint claim_discipline (self : string) (tr : trace) : bool :=
  match tr with
  | [] => true
  | e :: tr' => claim_step_allowed self e tr' && claim_discipline self tr'
  end.

(** The manager is interrupted while it waits for the other owner, after a
    failed read and a wait. *)
Definition claim_script_interrupted : list claim_step :=
  [ {| cs_owner := None; cs_err := Some (ErrOther 5); cs_wake := WakeOther;
       cs_claim := None |};
    step_owned_by "instance-2" WakeDying ].

(** A failed read, another owner that goes away, a failed claim, a claim. *)
Definition claim_script_contended : list claim_step :=
  [ {| cs_owner := None; cs_err := Some (ErrOther 5); cs_wake := WakeOther;
       cs_claim := None |};
    step_owned_by "instance-2" WakeOther;
    {| cs_owner := None; cs_err := None; cs_wake := WakeOther;
       cs_claim := Some (ErrOther 6) |};
    step_claimed ].

(** ** More on the startup helpers *)

(** The attempts to start the offset manager that fail and are retried. *)
Definition om_retried (s : om_step) : bool := negb (om_returns s).

(** The attempts to start the consumer that fail and are retried. *)
Definition pc_retried (s : pc_step) : bool := negb (pc_returns s).

(** The offset of every attempt is [cur] until an attempt is answered "offset
    out of range", and [initial] from the next attempt on. *)
Fixpoint attempts_at (cur initial : Z) (tr : trace) : bool :=
  match tr with
  | [] => true
  | EConsumePartition o err :: tr' =>
      (o =? cur)
      && attempts_at
           match err with
           | Some ErrOffsetOutOfRange => initial
           | _ => cur
           end initial tr'
  | _ :: tr' => attempts_at cur initial tr'
  end.

(** The offset manager fails to start twice and starts at the third
    attempt. *)
Definition om_script_third_time : list om_step :=
  [ {| om_handle := 0%nat; om_err := Some (ErrOther 1); om_wake := WakeOther |};
    {| om_handle := 0%nat; om_err := Some (ErrOther 2); om_wake := WakeOther |};
    {| om_handle := 7%nat; om_err := None; om_wake := WakeOther |} ].

(** The consumer fails with another error, then answers "offset out of
    range", fails again and starts. *)
Definition pc_script_expired : list pc_step :=
  [ step_failing 3 WakeOther; step_out_of_range; step_failing 4 WakeOther;
    step_consumer 9%nat ].

(** ** More on the dispatch loop *)

(** The messages the loop received from the consumer, in order. *)
Definition received (tr : trace) : list ConsumerMessage :=
  flat_map (fun e => match e with EMessage m => [m] | _ => [] end) tr.

(** The errors the loop received and the errors it forwarded, in order. *)
Definition errors_received (tr : trace) : list error :=
  flat_map (fun e => match e with EError x => [x] | _ => [] end) tr.

Definition errors_forwarded (tr : trace) : list error :=
  flat_map (fun e => match e with EForwardError x => [x] | _ => [] end) tr.

(** The errors the offset manager and the consumer hand to the loop. *)
Definition raised (script : list loop_step) : list error :=
  flat_map (fun s => match s with
                     | LoopOffsetManagerError x _ | LoopConsumerError x _ => [x]
                     | _ => []
                     end) script.

(** The iterations in which the dying channel is read, in the outer or in the
    inner [select]. *)
Definition interrupts (s : loop_step) : bool :=
  match s with
  | LoopDying => true
  | LoopMessage _ f | LoopOffsetManagerError _ f | LoopConsumerError _ f =>
      match f with ForwardDying => true | Forwarded => false end
  end.

(** [b] is [a], or [a] and one more element. *)
Definition at_most_one_more {A : Type} (a b : list A) : Prop :=
  b = a \/ exists x, b = a ++ [x].

(** Two messages and an error are forwarded; the third message is received
    but the manager is interrupted before it is forwarded. *)
Definition loop_script_cut : list loop_step :=
  [ step_message 10; LoopConsumerError (ErrOther 8) Forwarded; step_message 11;
    LoopMessage {| msg_Offset := 12 |} ForwardDying; step_message 13 ].

(** ** More on run *)







(** ** More on acknowledgements *)

(** The acknowledgements that close the completion signal: the manager is
    shutting down and the offset is the last consumed one. *)
Definition signals (pm : partitionManager) (o : Z) : bool :=
  negb (Tomb.is_alive (t pm)) && (o =? lastConsumedOffset pm).

Definition signal_count (pm : partitionManager) (offsets : list Z) : nat :=
  List.length (filter (signals pm) offsets).

(** The closes of [processingDone] that are behind or ahead: one when the
    channel is closed already, one for each signalling acknowledgement. *)
Definition closes (pm : partitionManager) (offsets : list Z) : nat :=
  (match processingDone pm with ChanClosed => 1 | ChanOpen => 0 end
   + signal_count pm offsets)%nat.

(** A manager with a bound offset manager that nobody interrupted, after it
    forwarded offset 12. *)
Definition pm_consuming_12 : partitionManager :=
  {| parent := cm_newest; t := Tomb.alive;
     partition_key := "topic/0"; offsetManager := Some 7%nat;
     lastConsumedOffset := 12; processingDone := ChanOpen |}.

(** * The example consumer

    The loop of [main] in [examples/kafkaconsumer/main.go]: it counts the
    messages of the consumer, checks the offset of each against the offset it
    recorded last for the same topic and partition, records it and
    acknowledges the message.  [offsets] is a map of maps; a Go map is a
    partial function here, and reading a missing key gives zero. *)

Definition sub64 (a b : Z) : Z := wrap64 (a - b).

(** The fields of a [sarama.ConsumerMessage] that [main] reads. *)
Record TopicMessage : Type := {
  tm_Topic : string;
  tm_Partition : Z;       (* int32 *)
  tm_Offset : Z           (* int64 *)
}.

Definition partition_map := Z -> option Z.                     (* map[int32]int64 *)
Definition topic_map := string -> option partition_map.

(** [offsets[topic][partition]], zero when a key is missing. *)
Definition lookup_offset (offsets : topic_map) (topic : string) (partition : Z)
  : Z :=
  match offsets topic with
  | Some po => match po partition with Some o => o | None => 0 end
  | None => 0
  end.

Inductive log_line : Type :=
| Unexpected (topic : string) (partition : Z) (expected found diff : Z)
| Processed (events : Z).

(** The variables of [main]: [eventCount] (Go's [int], taken as 64 bits
    wide), [offsets], and what was logged and acknowledged so far. *)
Record example_state : Type := {
  eventCount : Z;
  offsets : topic_map;
  logged : list log_line;
  acknowledged : list TopicMessage
}.

Definition example_start : example_state :=
  {| eventCount := 0; offsets := fun _ => None; logged := [];
     acknowledged := [] |}.

(** The body of the loop, for one message. *)
Definition handle_message (st : example_state) (m : TopicMessage) : example_state :=
  (* the inner map, made when it is missing *)
  let po := match offsets st (tm_Topic m) with
            | Some po => po
            | None => fun _ => None
            end in
  let last := match po (tm_Partition m) with Some o => o | None => 0 end in
  let logged' :=
    if negb (last =? 0) && negb (last =? sub64 (tm_Offset m) 1)
    then logged st
           ++ [Unexpected (tm_Topic m) (tm_Partition m) (add64 last 1)
                 (tm_Offset m) (add64 (sub64 (tm_Offset m) last) 1)]
    else logged st in
  {| eventCount := add64 (eventCount st) 1;
     offsets := fun t =>
       if String.eqb t (tm_Topic m)
       then Some (fun p => if p =? tm_Partition m then Some (tm_Offset m)
                           else po p)
       else offsets st t;
     logged := logged';
     acknowledged := acknowledged st ++ [m] |}.



(** ** Vocabulary for the example *)

Definition same_partition (topic : string) (partition : Z) (m : TopicMessage)
  : bool :=
  String.eqb topic (tm_Topic m) && (partition =? tm_Partition m).




Definition is_warning (l : log_line) : bool :=
  match l with Unexpected _ _ _ _ _ => true | Processed _ => false end.


(** Offsets as the brokers number them. *)
Definition valid_offset (m : TopicMessage) : Prop :=
  0 <= tm_Offset m < int64_max.


(** ** Cleanup errors *)

(** The same answers of the collaborators, but for what [pc.Close()] and
    [ReleasePartition] return. *)
Definition with_cleanup_errors (close_err release_err : option error)
    (rs : run_script) : run_script :=
  {| rs_claim := rs_claim rs;
     rs_offsetManager := rs_offsetManager rs;
     rs_committed := rs_committed rs;
     rs_consumer := rs_consumer rs;
     rs_loop := rs_loop rs;
     rs_close_consumer := close_err;
     rs_drain := rs_drain rs;
     rs_release := release_err |}.

(** The same step, with these results for the two cleanup calls. *)
Definition with_cleanup_results (close_err release_err : option error)
    (e : event) : event :=
  match e with
  | EClosePartitionConsumer pc _ => EClosePartitionConsumer pc close_err
  | EReleasePartition _ => EReleasePartition release_err
  | _ => e
  end.

(** ** What run holds when it takes a step *)

(** The steps that need the claim (from the start of the offset manager to the
    release), the bound offset manager (from the start of the consumer to its
    own close) and the open consumer (the dispatch loop and the close of the
    consumer), by their position. *)
Definition needs_claim (k : nat) : bool := (1 <=? k)%nat && (k <=? 7)%nat.
Definition needs_offsetManager (k : nat) : bool := (2 <=? k)%nat && (k <=? 6)%nat.
Definition needs_consumer (k : nat) : bool := (3 <=? k)%nat && (k <=? 4)%nat.

Definition is_bind (e : event) : bool :=
  match e with EBindOffsetManager _ => true | _ => false end.

Definition is_opened (e : event) : bool :=
  match e with EConsumePartition _ None => true | _ => false end.

(** A step at position [k] may be taken with what is held. *)
Definition permits (claimed bound opened : bool) (k : nat) : bool :=
  implb (needs_claim k) claimed
  && implb (needs_offsetManager k) bound
  && implb (needs_consumer k) opened.

Definition allowed (claimed bound opened : bool) (e : event) : bool :=
  match rank e with
  | Some k => permits claimed bound opened k
  | None => true
  end.

(** Every step of the trace may be taken with what the steps before it have
    acquired. *)
Fixpoint guarded (claimed bound opened : bool) (tr : trace) : bool :=
  match tr with
  | [] => true
  | e :: tr' =>
      allowed claimed bound opened e
      && guarded (claimed || is_successful_claim e) (bound || is_bind e)
           (opened || is_opened e) tr'
  end.

(** * Properties *)

(** ** Acknowledgement *)

Section Ack.
Variables (pm : partitionManager) (store : offset_store) (offset : Z).

Lemma ack_unbound :
  offsetManager pm = None ->
  ack offset (pm, store) = Panicked NilDereference (pm, store).
Proof. intros H. unfold ack. now rewrite H. Qed.

Lemma ack_alive (h : PartitionOffsetManager) :
  offsetManager pm = Some h ->
  Tomb.is_alive (t pm) = true ->
  ack offset (pm, store) = Returned (pm, store ++ [(h, offset)]).
Proof. intros H Ha. unfold ack. now rewrite H, Ha. Qed.

Lemma ack_other_offset (h : PartitionOffsetManager) :
  offsetManager pm = Some h ->
  offset <> lastConsumedOffset pm ->
  ack offset (pm, store) = Returned (pm, store ++ [(h, offset)]).
Proof.
  intros H Hne. unfold ack. rewrite H.
  apply Z.eqb_neq in Hne. rewrite Hne, andb_false_r. reflexivity.
Qed.

Lemma ack_signals (h : PartitionOffsetManager) :
  offsetManager pm = Some h ->
  Tomb.is_alive (t pm) = false ->
  offset = lastConsumedOffset pm ->
  processingDone pm = ChanOpen ->
  ack offset (pm, store)
  = Returned (set_processingDone ChanClosed pm, store ++ [(h, offset)]).
Proof.
  intros H Ha He Hc. unfold ack. rewrite H, Ha, Hc.
  apply Z.eqb_eq in He. rewrite He. reflexivity.
Qed.

Lemma ack_signals_twice (h : PartitionOffsetManager) :
  offsetManager pm = Some h ->
  Tomb.is_alive (t pm) = false ->
  offset = lastConsumedOffset pm ->
  processingDone pm = ChanClosed ->
  ack offset (pm, store)
  = Panicked CloseOfClosedChannel (pm, store ++ [(h, offset)]).
Proof.
  intros H Ha He Hc. unfold ack. rewrite H, Ha, Hc.
  apply Z.eqb_eq in He. rewrite He. reflexivity.
Qed.
End Ack.

(** C2: the completion signal is not closed at most once.  Two calls of [ack]
    with the last consumed offset while the manager shuts down: the first
    closes [processingDone], the second persists the offset and then closes
    the closed channel, which panics. *)
Theorem ack_final_offset_twice_panics :
  ack 12 (pm_draining_12, [])
  = Returned (set_processingDone ChanClosed pm_draining_12, [(7%nat, 12)])
  /\ acks [12; 12] (pm_draining_12, [])
     = Panicked CloseOfClosedChannel
         (set_processingDone ChanClosed pm_draining_12,
          [(7%nat, 12); (7%nat, 12)]).
Proof. split; reflexivity. Qed.

(** ** The starting offset *)

Lemma add64_exact (a b : Z) : is_int64 (a + b) -> add64 a b = a + b.
Proof.
  unfold is_int64, int64_min, int64_max, add64, wrap64. intros H.
  rewrite Z.mod_small; lia.
Qed.

(** The three cases of [initialOffset]; the addition is that of [int64], exact
    for every committed offset below the largest [int64]. *)
Lemma initialOffset_cases (cfg : config) (k : Z) :
  (k < 0 -> initialOffset cfg k = Offsets_Initial cfg)
  /\ (0 <= k -> initialOffset cfg k = add64 k 1)
  /\ (0 <= k < int64_max -> initialOffset cfg k = k + 1).
Proof.
  unfold initialOffset. repeat split.
  - intros H. apply Z.ltb_lt in H. now rewrite H.
  - intros H. apply Z.ltb_ge in H. now rewrite H.
  - intros [H0 H1]. apply Z.ltb_ge in H0. rewrite H0.
    apply add64_exact. unfold is_int64, int64_min, int64_max in *.
    apply Z.ltb_ge in H0. lia.
Qed.

(** ** The drain wait *)

Lemma select_done_or_timeout_bounded (done_after : option Duration) (tie : bool)
    (timeout : Duration) :
  0 <= timeout ->
  (exists w, select_done_or_timeout done_after tie timeout = EDrainSignalled w
             /\ 0 <= w <= timeout)
  \/ select_done_or_timeout done_after tie timeout = EDrainTimeout timeout.
Proof.
  intros Ht. unfold select_done_or_timeout.
  rewrite (Z.max_r 0 timeout) by lia.
  destruct done_after as [d|]; [| now right].
  destruct (Z.max 0 d <? timeout) eqn:E1.
  - left. exists (Z.max 0 d). apply Z.ltb_lt in E1. split; [reflexivity | lia].
  - destruct (timeout <? Z.max 0 d) eqn:E2; [now right |].
    destruct tie; [| now right].
    left. exists (Z.max 0 d).
    apply Z.ltb_ge in E1. apply Z.ltb_ge in E2. split; [reflexivity | lia].
Qed.

(** C4: with [C] the last consumed offset and [P] the offset read back from
    the offset manager, [waitForProcessing] does not wait when [C] is negative
    nor when [C <= P]; otherwise it waits on [processingDone] for at most
    [MaxProcessingTime], and exactly that long when the signal never comes. *)
Theorem waitForProcessing_bounded (pm : partitionManager) (d : drain_step)
    (h : PartitionOffsetManager) :
  let C := lastConsumedOffset pm in
  let P := ds_processed d in
  let T := MaxProcessingTime (cm_config (parent pm)) in
  offsetManager pm = Some h ->
  0 <= T ->
  (C < 0 -> waitForProcessing pm d = Returned [EDrainOffsets P C])
  /\ (C <= P -> waitForProcessing pm d = Returned [EDrainOffsets P C])
  /\ (0 <= C -> P < C ->
      exists w, waitForProcessing pm d = Returned [EDrainOffsets P C; w]
        /\ ((exists dt, w = EDrainSignalled dt /\ 0 <= dt <= T)
            \/ w = EDrainTimeout T)
        /\ (processingDone pm = ChanOpen -> ds_done_after d = None ->
            w = EDrainTimeout T)).
Proof.
  intros C P T Hh HT. unfold waitForProcessing. rewrite Hh.
  fold C P T. repeat split.
  - intros HC. destruct (C >=? 0) eqn:E; [apply Z.geb_le in E; lia | reflexivity].
  - intros HCP. destruct (C >=? 0); [| reflexivity].
    destruct (C >? P) eqn:E; [| reflexivity].
    apply Z.gtb_lt in E. lia.
  - intros HC HPC.
    assert (E1 : (C >=? 0) = true) by (apply Z.geb_le; lia).
    assert (E2 : (C >? P) = true) by (apply Z.gtb_lt; lia).
    rewrite E1, E2. eexists. split; [reflexivity |]. split.
    + destruct (select_done_or_timeout_bounded
                  match processingDone pm with
                  | ChanOpen => ds_done_after d
                  | ChanClosed => Some 0
                  end (ds_signal_wins_tie d) T HT) as [[w [Hw Hb]] | Hw].
      * left. exists w. split; [exact Hw | exact Hb].
      * right. exact Hw.
    + intros Hopen Hnever. rewrite Hopen, Hnever.
      unfold select_done_or_timeout. now rewrite Z.max_r by lia.
Qed.

Lemma waitForProcessing_bounded_witness :
  exists w,
    waitForProcessing pm_draining_12 drain_never_acked
    = Returned [EDrainOffsets 11 12; w]
    /\ ((exists dt, w = EDrainSignalled dt /\ 0 <= dt <= 60 * Second)
        \/ w = EDrainTimeout (60 * Second))
    /\ (ChanOpen = ChanOpen -> @None Duration = None ->
        w = EDrainTimeout (60 * Second)).
Proof.
  refine (proj2 (proj2 (waitForProcessing_bounded pm_draining_12
                          drain_never_acked 7%nat eq_refl _)) _ _);
    simpl; unfold Second; lia.
Defined.

(** ** The helpers of run *)

Lemma same_fields_refl (pm : partitionManager) : same_fields pm pm.
Proof. repeat split. Qed.

Lemma same_fields_interrupt (pm : partitionManager) :
  same_fields pm (observe_dying pm).
Proof. repeat split. Qed.

Create HintDb helpers.
#[local] Hint Resolve same_fields_refl same_fields_interrupt : helpers.

(** Splits the hypothesis that a helper returned along the branches of its
    body. *)
Ltac branches H :=
  repeat match type of H with
         | context [match ?x with _ => _ end] => destruct x eqn:?
         | context [if ?x then _ else _] => destruct x eqn:?
         end;
  try discriminate H;
  first [injection H as <- <- <- | injection H as <- <- | idtac].

Lemma claimPartition_result (pm : partitionManager) (script : list claim_step)
    (r : option error) (pm' : partitionManager) (tr : trace) :
  claimPartition pm script = Some (r, pm', tr) ->
  r = None \/ r = Some ErrDying \/ r = Some (ErrAlreadyOwner (partition_key pm)).
Proof.
  revert r pm' tr. induction script as [|s rest IH]; intros r pm' tr H;
    [discriminate |].
  simpl in H. branches H; eauto.
Qed.

Lemma claimPartition_same_fields (pm : partitionManager) (script : list claim_step)
    (r : option error) (pm' : partitionManager) (tr : trace) :
  claimPartition pm script = Some (r, pm', tr) -> same_fields pm pm'.
Proof.
  revert r pm' tr. induction script as [|s rest IH]; intros r pm' tr H;
    [discriminate |].
  simpl in H. branches H; eauto with helpers.
Qed.

Lemma startPartitionOffsetManager_result (pm : partitionManager)
    (script : list om_step) (r : option PartitionOffsetManager * option error)
    (pm' : partitionManager) (tr : trace) :
  startPartitionOffsetManager pm script = Some (r, pm', tr) ->
  (exists h, r = (Some h, None)) \/ r = (None, Some ErrDying).
Proof.
  revert r pm' tr. induction script as [|s rest IH]; intros r pm' tr H;
    [discriminate |].
  simpl in H. branches H; eauto.
Qed.

Lemma startPartitionOffsetManager_same_fields (pm : partitionManager)
    (script : list om_step) (r : option PartitionOffsetManager * option error)
    (pm' : partitionManager) (tr : trace) :
  startPartitionOffsetManager pm script = Some (r, pm', tr) -> same_fields pm pm'.
Proof.
  revert r pm' tr. induction script as [|s rest IH]; intros r pm' tr H;
    [discriminate |].
  simpl in H. branches H; eauto with helpers.
Qed.

Lemma startPartitionConsumer_result (pm : partitionManager) (start : Z)
    (script : list pc_step) (r : option PartitionConsumer * option error)
    (pm' : partitionManager) (tr : trace) :
  startPartitionConsumer pm start script = Some (r, pm', tr) ->
  (exists pc, r = (Some pc, None)) \/ r = (None, Some ErrDying).
Proof.
  revert start r pm' tr. induction script as [|s rest IH]; intros start r pm' tr H;
    [discriminate |].
  simpl in H. branches H; eauto.
Qed.


(** ** The paths of run *)

(** Closes a goal [run_path ... tr'] with a path [P] whose trace differs from
    [tr'] in the bracketing of its concatenations only. *)
Ltac path_by P :=
  match type of P with
  | run_path _ _ _ ?tr =>
      match goal with
      | |- run_path _ _ _ ?tr' =>
          replace tr' with tr; [exact P |];
          unfold run_deferred, drain_trace; cbn [flat_map run_deferred_call];
          repeat (rewrite <- ?app_assoc, ?app_nil_r; cbn [app]); reflexivity
      end
  end.

Lemma run_inv (pm : partitionManager) (rs : run_script)
    (pm' : partitionManager) (tr : trace) :
  run pm rs = Some (pm', tr) -> run_path pm rs pm' tr.
Proof.
  unfold run, run_body. intros H.
  destruct (claimPartition pm (rs_claim rs)) as [[[r1 pm1] tr1]|] eqn:E1;
    [| discriminate].
  destruct r1 as [err|].
  { injection H as <- <-. path_by (RunNotClaimed pm rs err pm1 tr1 E1). }
  destruct (startPartitionOffsetManager pm1 (rs_offsetManager rs))
    as [[[r2 pm2] tr2]|] eqn:E2; [| discriminate].
  destruct (startPartitionOffsetManager_result _ _ _ _ _ E2) as [[h ->] | ->].
  2:{ injection H as <- <-.
      path_by (RunNoOffsetManager pm rs pm1 tr1 pm2 tr2 E1 E2). }
  simpl in H.
  destruct (startPartitionConsumer (set_offsetManager h pm2) _ (rs_consumer rs))
    as [[[r4 pm4] tr4]|] eqn:E4; [| discriminate].
  destruct (startPartitionConsumer_result _ _ _ _ _ _ E4) as [[pc ->] | ->].
  2:{ injection H as <- <-.
      path_by (RunNoConsumer pm rs pm1 tr1 h pm2 tr2 pm4 tr4 E1 E2 E4). }
  destruct (dispatch pm4 (rs_loop rs)) as [[pm5 tr5]|] eqn:E5; [| discriminate].
  injection H as <- <-.
  path_by (RunConsumed pm rs pm1 tr1 h pm2 tr2 pc pm4 tr4 pm5 tr5 E1 E2 E4 E5).
Qed.

(** ** Resources: the claim, the offset manager, the partition consumer *)

Lemma lifecycle_app (r : resource) (a b : trace) (s : rstate) :
  lifecycle r s (a ++ b)
  = match lifecycle r s a with
    | Some s' => lifecycle r s' b
    | None => None
    end.
Proof.
  revert s. induction a as [|e a IH]; intros s; simpl; [reflexivity |].
  destruct (lifecycle_step r s e); [apply IH | reflexivity].
Qed.

Lemma lifecycle_counts (r : resource) (tr : trace) (s s' : rstate) :
  lifecycle r s tr = Some s' ->
  (acquisitions s + count (acquires r) tr = acquisitions s')%nat
  /\ (releases_so_far s + count (releases r) tr = releases_so_far s')%nat.
Proof.
  unfold count. revert s. induction tr as [|e tr IH]; intros s H; simpl in *.
  - injection H as <-. lia.
  - unfold lifecycle_step in H.
    destruct (acquires r e) eqn:Ea.
    + assert (Er : releases r e = false).
      { unfold acquires, releases in *. destruct e; simpl in *; try discriminate;
          reflexivity. }
      rewrite Er. destruct s; simpl in H; try discriminate.
      apply IH in H. simpl in *. lia.
    + destruct (releases r e) eqn:Er.
      * destruct s; simpl in H; try discriminate. apply IH in H. simpl in *. lia.
      * apply IH in H. lia.
Qed.

Lemma lifecycle_inert (r : resource) (tr : trace) (s : rstate) :
  Forall inert tr -> lifecycle r s tr = Some s.
Proof.
  induction 1 as [|e tr [Ha Hr] _ IH]; simpl; [reflexivity |].
  unfold lifecycle_step, acquires, releases. now rewrite Ha, Hr.
Qed.

(** Rewrites with the equations that [branches] left behind. *)
Ltac recall :=
  repeat match goal with
         | E : ?x = _ |- context [?x] => rewrite E
         end.

Lemma claimPartition_lifecycle (pm : partitionManager) (script : list claim_step)
    (r : option error) (pm' : partitionManager) (tr : trace) :
  claimPartition pm script = Some (r, pm', tr) ->
  forall res s,
    lifecycle res s tr
    = match r with
      | None => if resource_eqb res Claim then after_acquire s else Some s
      | Some _ => Some s
      end.
Proof.
  revert r pm' tr. induction script as [|st rest IH]; intros r pm' tr H;
    [discriminate |].
  simpl in H. branches H; intros res q; simpl; recall;
    try (eapply IH; (reflexivity || eassumption)); try reflexivity.
  unfold lifecycle_step, acquires; simpl.
  destruct res, q; reflexivity.
Qed.

Lemma startPartitionOffsetManager_lifecycle (pm : partitionManager)
    (script : list om_step) (r : option PartitionOffsetManager * option error)
    (pm' : partitionManager) (tr : trace) :
  startPartitionOffsetManager pm script = Some (r, pm', tr) ->
  forall res s,
    lifecycle res s tr
    = match snd r with
      | None => if resource_eqb res OffsetStore then after_acquire s else Some s
      | Some _ => Some s
      end.
Proof.
  revert r pm' tr. induction script as [|st rest IH]; intros r pm' tr H;
    [discriminate |].
  simpl in H. branches H; intros res q; simpl; recall;
    try (eapply IH; (reflexivity || eassumption)); try reflexivity.
  unfold lifecycle_step, acquires; simpl.
  destruct res, q; reflexivity.
Qed.

Lemma startPartitionConsumer_lifecycle (pm : partitionManager) (start : Z)
    (script : list pc_step) (r : option PartitionConsumer * option error)
    (pm' : partitionManager) (tr : trace) :
  startPartitionConsumer pm start script = Some (r, pm', tr) ->
  forall res s,
    lifecycle res s tr
    = match snd r with
      | None => if resource_eqb res Consumer then after_acquire s else Some s
      | Some _ => Some s
      end.
Proof.
  revert start r pm' tr. induction script as [|st rest IH]; intros start r pm' tr H;
    [discriminate |].
  simpl in H. branches H; intros res q; simpl; recall;
    try (eapply IH; (reflexivity || eassumption)); try reflexivity.
  unfold lifecycle_step, acquires; simpl.
  destruct res, q; reflexivity.
Qed.

Lemma dispatch_inert (pm : partitionManager) (script : list loop_step)
    (pm' : partitionManager) (tr : trace) :
  dispatch pm script = Some (pm', tr) -> Forall inert tr.
Proof.
  revert pm pm' tr. induction script as [|st rest IH]; intros pm pm' tr H;
    [discriminate |].
  simpl in H. branches H; repeat (constructor; [now split |]);
    try constructor; eapply IH; (reflexivity || eassumption).
Qed.

Lemma select_done_or_timeout_inert (done_after : option Duration) (tie : bool)
    (timeout : Duration) :
  inert (select_done_or_timeout done_after tie timeout).
Proof.
  unfold select_done_or_timeout.
  destruct done_after; repeat match goal with
                              | |- context [if ?b then _ else _] => destruct b
                              end; now split.
Qed.

Lemma drain_trace_inert (pm : partitionManager) (rs : run_script) :
  Forall inert (drain_trace pm rs).
Proof.
  unfold drain_trace, run_deferred_call, waitForProcessing.
  destruct (offsetManager pm); simpl.
  - repeat match goal with
           | |- context [if ?b then _ else _] => destruct b
           end;
      repeat (constructor; try now split);
      apply select_done_or_timeout_inert.
  - repeat constructor.
Qed.

(** C1: on every path on which [run] returns, the claim, the offset manager
    and the partition consumer are each released once when they were acquired
    and not at all otherwise, and never before they were acquired. *)
Theorem run_releases_what_it_acquired (pm : partitionManager) (rs : run_script)
    (pm' : partitionManager) (tr : trace) (res : resource) :
  run pm rs = Some (pm', tr) ->
  (lifecycle res Fresh tr = Some Fresh \/ lifecycle res Fresh tr = Some Released)
  /\ count (releases res) tr = count (acquires res) tr
  /\ (count (acquires res) tr <= 1)%nat.
Proof.
  intros H. apply run_inv in H.
  assert (L : lifecycle res Fresh tr = Some Fresh
              \/ lifecycle res Fresh tr = Some Released).
  { destruct H;
      repeat match goal with
             | E : claimPartition _ _ = Some _ |- _ =>
                 apply claimPartition_lifecycle with (res := res) (s := Fresh) in E
             | E : startPartitionOffsetManager _ _ = Some _ |- _ =>
                 pose proof (startPartitionOffsetManager_lifecycle _ _ _ _ _ E res);
                 clear E
             | E : startPartitionConsumer _ _ _ = Some _ |- _ =>
                 pose proof (startPartitionConsumer_lifecycle _ _ _ _ _ _ E res);
                 clear E
             | E : dispatch _ _ = Some _ |- _ =>
                 apply dispatch_inert in E;
                 pose proof (fun s => lifecycle_inert res _ s E); clear E
             end;
      pose proof (fun p s => lifecycle_inert res _ s (drain_trace_inert p rs));
      simpl snd in *;
      destruct res; simpl in *;
      repeat (rewrite lifecycle_app;
              repeat match goal with
                     | E : forall s, lifecycle _ s _ = _ |- _ => rewrite E
                     | E : forall p s, lifecycle _ s _ = _ |- _ => rewrite E
                     | E : lifecycle _ _ _ = _ |- _ => rewrite E
                     end; simpl);
      auto. }
  split; [exact L |].
  destruct L as [L | L]; apply lifecycle_counts in L; simpl in L; lia.
Qed.

Lemma run_releases_what_it_acquired_witness :
  exists pm' tr,
    run pm_new rs_consumed = Some (pm', tr)
    /\ (lifecycle Consumer Fresh tr = Some Fresh
        \/ lifecycle Consumer Fresh tr = Some Released)
    /\ count (releases Consumer) tr = count (acquires Consumer) tr
    /\ (count (acquires Consumer) tr <= 1)%nat.
Proof.
  eexists. eexists. split; [reflexivity |].
  eapply (run_releases_what_it_acquired pm_new rs_consumed). reflexivity.
Defined.

(** ** Claiming *)

Lemma claimPartition_continue (pm : partitionManager) (s : claim_step)
    (rest : list claim_step) :
  continues pm s = true ->
  exists e,
    claimPartition pm (s :: rest)
    = match claimPartition pm rest with
      | Some (r, pm', tr) =>
          Some (r, pm', EWatchPartitionOwner (cs_owner s) (cs_err s) :: e :: tr)
      | None => None
      end.
Proof.
  unfold continues. intros H. simpl.
  destruct (cs_err s); [destruct (cs_wake s); [| discriminate] |].
  { eexists. destruct (claimPartition pm rest) as [[[? ?] ?]|]; reflexivity. }
  destruct (cs_owner s) as [owner|].
  - destruct (String.eqb owner _); [discriminate |].
    destruct (cs_wake s); [| discriminate].
    eexists. destruct (claimPartition pm rest) as [[[? ?] ?]|]; reflexivity.
  - destruct (cs_claim s); [| discriminate].
    eexists. destruct (claimPartition pm rest) as [[[? ?] ?]|]; reflexivity.
Qed.

Lemma claimPartition_after_continues (pm : partitionManager)
    (pre script : list claim_step) (r : option error) (pm' : partitionManager)
    (tr : trace) :
  forallb (continues pm) pre = true ->
  claimPartition pm script = Some (r, pm', tr) ->
  exists tr0, claimPartition pm (pre ++ script) = Some (r, pm', tr0 ++ tr).
Proof.
  intros Hpre H. induction pre as [|s pre IH]; simpl in Hpre.
  - exists []. exact H.
  - apply andb_prop in Hpre as [Hs Hpre].
    destruct (IH Hpre) as [tr0 E].
    destruct (claimPartition_continue pm s (pre ++ script) Hs) as [e Ee].
    exists (EWatchPartitionOwner (cs_owner s) (cs_err s) :: e :: tr0).
    change ((s :: pre) ++ script) with (s :: pre ++ script).
    rewrite Ee, E. reflexivity.
Qed.

Lemma claimPartition_errors (pm : partitionManager) (script : list claim_step)
    (e : error) (pm' : partitionManager) (tr : trace) :
  claimPartition pm script = Some (Some e, pm', tr) ->
  e = ErrDying
  \/ (e = ErrAlreadyOwner (partition_key pm)
      /\ exists tr0,
           tr = tr0 ++ [EWatchPartitionOwner (Some (instance_ID (parent pm))) None]).
Proof.
  revert pm' tr. induction script as [|s rest IH]; intros pm' tr H;
    [discriminate |].
  simpl in H.
  destruct (cs_err s) eqn:Eerr.
  { destruct (cs_wake s).
    - destruct (claimPartition pm rest) as [[[r1 pm1] tr1]|] eqn:E1; [| discriminate].
      injection H as -> <- <-.
      destruct (IH pm1 tr1 eq_refl) as [-> | [-> [tr0 ->]]]; [now left | right].
      split; [reflexivity |]. now exists (EWatchPartitionOwner (cs_owner s) (Some e0)
                                          :: ETimer (1 * Second) :: tr0).
    - injection H as <- <- <-. now left. }
  destruct (cs_owner s) as [owner|] eqn:Eown.
  - destruct (String.eqb owner (instance_ID (parent pm))) eqn:Eself.
    + injection H as <- <- <-. right. split; [reflexivity |].
      apply String.eqb_eq in Eself. subst owner. now exists [].
    + destruct (cs_wake s).
      * destruct (claimPartition pm rest) as [[[r1 pm1] tr1]|] eqn:E1; [| discriminate].
        injection H as -> <- <-.
        destruct (IH pm1 tr1 eq_refl) as [-> | [-> [tr0 ->]]]; [now left | right].
        split; [reflexivity |]. now exists (EWatchPartitionOwner (Some owner) None
                                            :: EOwnerChanged :: tr0).
      * injection H as <- <- <-. now left.
  - destruct (cs_claim s) as [ce|]; [| discriminate].
    destruct (claimPartition pm rest) as [[[r1 pm1] tr1]|] eqn:E1; [| discriminate].
    injection H as -> <- <-.
    destruct (IH pm1 tr1 eq_refl) as [-> | [-> [tr0 ->]]]; [now left | right].
    split; [reflexivity |]. now exists (EWatchPartitionOwner None None
                                        :: EClaimPartition (Some ce) :: tr0).
Qed.

(** C7: as soon as a successful read of the owner returns this instance,
    [claimPartition] returns the "already the owner" error: the read is the
    last thing it does, whatever the rest of the script.  Any error it returns
    other than [tomb.ErrDying] is that error, returned right after such a
    read. *)
Theorem claimPartition_own_instance_is_fatal (pm : partitionManager) :
  (forall pre s rest,
      forallb (continues pm) pre = true ->
      cs_err s = None ->
      cs_owner s = Some (instance_ID (parent pm)) ->
      exists tr0,
        claimPartition pm (pre ++ s :: rest)
        = Some (Some (ErrAlreadyOwner (partition_key pm)), pm,
                tr0 ++ [EWatchPartitionOwner (Some (instance_ID (parent pm))) None]))
  /\ (forall script e pm' tr,
         claimPartition pm script = Some (Some e, pm', tr) ->
         e <> ErrDying ->
         e = ErrAlreadyOwner (partition_key pm)
         /\ exists tr0,
              tr = tr0 ++ [EWatchPartitionOwner (Some (instance_ID (parent pm))) None]).
Proof.
  split.
  - intros pre s rest Hpre Herr Hown.
    apply claimPartition_after_continues; [exact Hpre |].
    simpl. rewrite Herr, Hown, String.eqb_refl. reflexivity.
  - intros script e pm' tr H Hne.
    destruct (claimPartition_errors pm script e pm' tr H) as [-> | R];
      [now elim Hne | exact R].
Qed.

Lemma claimPartition_own_instance_is_fatal_witness :
  exists tr0,
    claimPartition pm_new
      ([step_owned_by "instance-2" WakeOther]
         ++ step_owned_by "instance-1" WakeOther :: [step_claimed])
    = Some (Some (ErrAlreadyOwner "topic/0"), pm_new,
            tr0 ++ [EWatchPartitionOwner (Some "instance-1"%string) None]).
Proof.
  apply (proj1 (claimPartition_own_instance_is_fatal pm_new)
           [step_owned_by "instance-2" WakeOther]
           (step_owned_by "instance-1" WakeOther) [step_claimed]);
    reflexivity.
Defined.

(** ** The startup helpers *)

Lemma startPartitionOffsetManager_returns (pm : partitionManager)
    (script : list om_step) :
  existsb om_returns script = true ->
  exists r, startPartitionOffsetManager pm script = Some r.
Proof.
  induction script as [|s rest IH]; simpl; [discriminate |].
  unfold om_returns at 1.
  destruct (om_err s); [destruct (om_wake s) |]; simpl; intros H; eauto.
  destruct (IH H) as [[[r pm'] tr] ->]. eauto.
Qed.

Lemma startPartitionConsumer_returns (pm : partitionManager) (start : Z)
    (script : list pc_step) :
  existsb pc_returns script = true ->
  exists r, startPartitionConsumer pm start script = Some r.
Proof.
  revert start. induction script as [|s rest IH]; simpl; [discriminate |].
  unfold pc_returns at 1. intros start.
  destruct (pc_err s) as [[]|]; destruct (pc_wake s); simpl; intros H; eauto;
    match goal with
    | |- context [startPartitionConsumer pm ?o rest] =>
        destruct (IH o H) as [[[r pm'] tr] ->]; eauto
    end.
Qed.

Lemma startPartitionOffsetManager_delays (pm : partitionManager)
    (script : list om_step) (r : option PartitionOffsetManager * option error)
    (pm' : partitionManager) (tr : trace) :
  startPartitionOffsetManager pm script = Some (r, pm', tr) ->
  delayed_retries tr = true.
Proof.
  revert r pm' tr. induction script as [|s rest IH]; intros r pm' tr H;
    [discriminate |].
  simpl in H. branches H; simpl; recall; simpl; try reflexivity.
  eapply IH; (reflexivity || eassumption).
Qed.

Lemma startPartitionConsumer_delays (pm : partitionManager) (start : Z)
    (script : list pc_step) (r : option PartitionConsumer * option error)
    (pm' : partitionManager) (tr : trace) :
  startPartitionConsumer pm start script = Some (r, pm', tr) ->
  delayed_retries_but_out_of_range (Offsets_Initial (cm_config (parent pm))) tr
  = true.
Proof.
  revert start r pm' tr. induction script as [|s rest IH]; intros start r pm' tr H;
    [discriminate |].
  simpl in H. branches H; simpl; recall; simpl; try reflexivity;
    try (eapply IH; eassumption).
  (* offset out of range: the next event is the attempt at the initial offset *)
  rewrite (IH _ _ _ _ Heqo0), andb_true_r.
  destruct rest as [|s' rest']; [discriminate |].
  simpl in Heqo0. branches Heqo0; simpl; apply Z.eqb_refl.
Qed.

(** *** Offset out of range *)

Lemma delayed_retries_falls_back (initial : Z) (tr : trace) :
  delayed_retries_but_out_of_range initial tr = true ->
  falls_back_at_once initial tr = true.
Proof.
  induction tr as [|e tr IH]; simpl; [reflexivity |].
  destruct e; simpl; auto;
    destruct err as [[]|]; simpl; auto;
    intros H; apply andb_prop in H as [H1 H2]; rewrite ?H1; auto.
Qed.

Lemma startPartitionConsumer_out_of_range_then (pm : partitionManager)
    (n : nat) (start : Z) (rest : list pc_step) :
  let initial := Offsets_Initial (cm_config (parent pm)) in
  startPartitionConsumer pm start (repeat step_out_of_range n ++ rest)
  = match startPartitionConsumer pm (offset_after initial start n) rest with
    | Some (r, pm', tr) =>
        Some (r, pm', out_of_range_attempts initial start n ++ tr)
    | None => None
    end.
Proof.
  intros initial. revert start. induction n as [|n IH]; intros start.
  - simpl. now destruct (startPartitionConsumer pm start rest) as [[[? ?] ?]|].
  - simpl. fold initial. rewrite IH.
    destruct n; simpl;
      now destruct (startPartitionConsumer pm initial rest) as [[[? ?] ?]|].
Qed.

Lemma fallbacks_out_of_range_attempts (initial start : Z) (n : nat) (tr : trace) :
  fallbacks (out_of_range_attempts initial start n ++ tr)
  = (n + fallbacks tr)%nat.
Proof.
  unfold fallbacks, count. destruct n as [|n]; simpl; [reflexivity |].
  f_equal. induction n as [|n IH]; simpl; [reflexivity | now rewrite IH].
Qed.

Lemma fallbacks_cons (e : event) (tr : trace) :
  fallbacks (e :: tr)
  = ((if is_out_of_range e then 1 else 0) + fallbacks tr)%nat.
Proof. unfold fallbacks, count. simpl. now destruct (is_out_of_range e). Qed.

(** When no attempt at the initial offset is answered "offset out of range",
    the attempts from the initial offset cause no fallback, and the attempts
    from any other offset cause at most one. *)
Lemma startPartitionConsumer_no_fallback (pm : partitionManager)
    (script : list pc_step) (r : option PartitionConsumer * option error)
    (pm' : partitionManager) (tr : trace) :
  let initial := Offsets_Initial (cm_config (parent pm)) in
  startPartitionConsumer pm initial script = Some (r, pm', tr) ->
  existsb (out_of_range_at initial) tr = false ->
  fallbacks tr = 0%nat.
Proof.
  intros initial. revert r pm' tr.
  induction script as [|s rest IH]; intros r pm' tr H; [discriminate |].
  simpl in H. fold initial in H. branches H;
    rewrite ?fallbacks_cons; cbn [existsb out_of_range_at is_out_of_range];
    rewrite ?Z.eqb_refl; cbn [orb Nat.add]; try discriminate; try reflexivity;
    intros Hno; eapply IH; (reflexivity || eassumption).
Qed.

Lemma startPartitionConsumer_one_fallback (pm : partitionManager) (start : Z)
    (script : list pc_step) (r : option PartitionConsumer * option error)
    (pm' : partitionManager) (tr : trace) :
  let initial := Offsets_Initial (cm_config (parent pm)) in
  startPartitionConsumer pm start script = Some (r, pm', tr) ->
  existsb (out_of_range_at initial) tr = false ->
  (fallbacks tr <= 1)%nat.
Proof.
  intros initial. revert start r pm' tr.
  induction script as [|s rest IH]; intros start r pm' tr H; [discriminate |].
  simpl in H. fold initial in H. branches H;
    rewrite ?fallbacks_cons; cbn [existsb out_of_range_at is_out_of_range];
    cbn [orb Nat.add]; try (cbn; lia);
    try (intros Hno; eapply IH; eassumption).
  intros Hno. apply orb_false_elim in Hno as [_ Hno].
  erewrite startPartitionConsumer_no_fallback; eauto.
Qed.

(** C3, as the code has it: every "offset out of range" answer makes
    [startPartitionConsumer] retry at once at the configured initial offset,
    with no wait.  There is at most one fallback when no attempt at the
    initial offset is answered "offset out of range"; the code has no bound of
    its own: [n] such answers in a row cause [n] fallbacks before the consumer
    starts, and the helper does not return as long as they last. *)
Theorem out_of_range_falls_back_every_time (pm : partitionManager) (start : Z) :
  let initial := Offsets_Initial (cm_config (parent pm)) in
  (forall script r pm' tr,
      startPartitionConsumer pm start script = Some (r, pm', tr) ->
      falls_back_at_once initial tr = true
      /\ (existsb (out_of_range_at initial) tr = false ->
          (fallbacks tr <= 1)%nat))
  /\ (forall n pc,
         exists tr,
           startPartitionConsumer pm start
             (repeat step_out_of_range n ++ [step_consumer pc])
           = Some ((Some pc, None), pm, tr)
           /\ fallbacks tr = n
           /\ delayed_retries_but_out_of_range initial tr = true
           /\ count (fun e => match e with ETimer _ => true | _ => false end) tr
              = 0%nat)
  /\ (forall n, startPartitionConsumer pm start (repeat step_out_of_range n) = None).
Proof.
  intros initial. split; [| split].
  - intros script r pm' tr H. split.
    + apply delayed_retries_falls_back.
      exact (startPartitionConsumer_delays _ _ _ _ _ _ H).
    + exact (startPartitionConsumer_one_fallback _ _ _ _ _ _ H).
  - intros n pc. eexists. split; [| split; [| split]].
    + rewrite startPartitionConsumer_out_of_range_then. simpl. reflexivity.
    + rewrite fallbacks_out_of_range_attempts. unfold fallbacks, count. simpl. lia.
    + apply (startPartitionConsumer_delays pm start
               (repeat step_out_of_range n ++ [step_consumer pc])
               (Some pc, None) pm).
      rewrite startPartitionConsumer_out_of_range_then. reflexivity.
    + unfold count. rewrite filter_app, length_app. simpl.
      destruct n as [|n]; simpl; [reflexivity |].
      induction n as [|n IH]; simpl; [reflexivity | exact IH].
  - intros n. rewrite <- (app_nil_r (repeat step_out_of_range n)).
    rewrite startPartitionConsumer_out_of_range_then. reflexivity.
Qed.

Lemma out_of_range_falls_back_every_time_witness :
  falls_back_at_once OffsetNewest
    [EConsumePartition 42 (Some ErrOffsetOutOfRange);
     EConsumePartition OffsetNewest None] = true
  /\ (existsb (out_of_range_at OffsetNewest)
        [EConsumePartition 42 (Some ErrOffsetOutOfRange);
         EConsumePartition OffsetNewest None] = false ->
      (fallbacks [EConsumePartition 42 (Some ErrOffsetOutOfRange);
                  EConsumePartition OffsetNewest None] <= 1)%nat).
Proof.
  apply (proj1 (out_of_range_falls_back_every_time pm_new 42)
           [step_out_of_range; step_consumer 9%nat] (Some 9%nat, None) pm_new).
  reflexivity.
Defined.

(** C3 as the specification words it fails: two answers "offset out of range"
    in a row cause two fallbacks. *)
Lemma out_of_range_twice_falls_back_twice :
  ~ (forall pm start script r pm' tr,
        startPartitionConsumer pm start script = Some (r, pm', tr) ->
        (fallbacks tr <= 1)%nat).
Proof.
  intros H.
  specialize (H pm_new 42
                [step_out_of_range; step_out_of_range; step_consumer 9%nat]
                _ _ _ eq_refl).
  vm_compute in H. lia.
Qed.

(** C6, as the code has it: each of the two helpers returns a handle with a
    nil error or no handle with [tomb.ErrDying], and does return once an
    attempt succeeds or a wait is interrupted.  Every failed attempt is followed
    by a wait of one second, except the answer "offset out of range" of the
    consumer, after which the next attempt follows at once. *)
Theorem startup_helpers_return_handle_or_dying (pm : partitionManager) :
  (forall script r pm' tr,
      startPartitionOffsetManager pm script = Some (r, pm', tr) ->
      ((exists h, r = (Some h, None)) \/ r = (None, Some ErrDying))
      /\ delayed_retries tr = true)
  /\ (forall start script r pm' tr,
         startPartitionConsumer pm start script = Some (r, pm', tr) ->
         ((exists pc, r = (Some pc, None)) \/ r = (None, Some ErrDying))
         /\ delayed_retries_but_out_of_range
              (Offsets_Initial (cm_config (parent pm))) tr = true)
  /\ (forall script,
         existsb om_returns script = true ->
         exists r, startPartitionOffsetManager pm script = Some r)
  /\ (forall start script,
         existsb pc_returns script = true ->
         exists r, startPartitionConsumer pm start script = Some r).
Proof.
  repeat split.
  - eapply startPartitionOffsetManager_result; eassumption.
  - eapply startPartitionOffsetManager_delays; eassumption.
  - eapply startPartitionConsumer_result; eassumption.
  - eapply startPartitionConsumer_delays; eassumption.
  - apply startPartitionOffsetManager_returns.
  - apply startPartitionConsumer_returns.
Qed.

Lemma startup_helpers_return_handle_or_dying_witness :
  ((exists pc, (Some 9%nat, @None error) = (Some pc, None))
   \/ (Some 9%nat, @None error) = (None, Some ErrDying))
  /\ delayed_retries_but_out_of_range OffsetNewest
       [EConsumePartition 42 (Some (ErrOther 3)); ETimer (1 * Second);
        EConsumePartition 42 (Some ErrOffsetOutOfRange);
        EConsumePartition OffsetNewest None] = true.
Proof.
  apply (proj1 (proj2 (startup_helpers_return_handle_or_dying pm_new)) 42
           [step_failing 3 WakeOther; step_out_of_range; step_consumer 9%nat]
           (Some 9%nat, None) pm_new).
  reflexivity.
Defined.

(** C6 as the specification words it fails: the answer "offset out of range"
    is an error that is retried with no delay. *)
Lemma out_of_range_retried_without_delay :
  ~ (forall pm start script r pm' tr,
        startPartitionConsumer pm start script = Some (r, pm', tr) ->
        delayed_retries tr = true).
Proof.
  intros H.
  specialize (H pm_new 42 [step_out_of_range; step_consumer 9%nat]
                _ _ _ eq_refl).
  discriminate H.
Qed.

(** ** The order of the steps of run *)

Lemma ranked_here (k : nat) (e : event) : rank e = Some k -> ranked k e.
Proof. now right. Qed.

Lemma ranked_nowhere (k : nat) (e : event) : rank e = None -> ranked k e.
Proof. now left. Qed.

#[local] Hint Resolve ranked_here ranked_nowhere : helpers.
#[local] Hint Constructors Forall : helpers.

Lemma claimPartition_ranked (pm : partitionManager) (script : list claim_step)
    (r : option error) (pm' : partitionManager) (tr : trace) :
  claimPartition pm script = Some (r, pm', tr) -> Forall (ranked 0) tr.
Proof.
  revert r pm' tr. induction script as [|s rest IH]; intros r pm' tr H;
    [discriminate |].
  simpl in H. branches H;
    repeat (constructor; [now auto with helpers |]);
    try constructor; eapply IH; (reflexivity || eassumption).
Qed.

Lemma startPartitionOffsetManager_ranked (pm : partitionManager)
    (script : list om_step) (r : option PartitionOffsetManager * option error)
    (pm' : partitionManager) (tr : trace) :
  startPartitionOffsetManager pm script = Some (r, pm', tr) ->
  Forall (ranked 1) tr.
Proof.
  revert r pm' tr. induction script as [|s rest IH]; intros r pm' tr H;
    [discriminate |].
  simpl in H. branches H;
    repeat (constructor; [now auto with helpers |]);
    try constructor; eapply IH; (reflexivity || eassumption).
Qed.

Lemma startPartitionConsumer_ranked (pm : partitionManager) (start : Z)
    (script : list pc_step) (r : option PartitionConsumer * option error)
    (pm' : partitionManager) (tr : trace) :
  startPartitionConsumer pm start script = Some (r, pm', tr) ->
  Forall (ranked 2) tr.
Proof.
  revert start r pm' tr. induction script as [|s rest IH]; intros start r pm' tr H;
    [discriminate |].
  simpl in H. branches H;
    repeat (constructor; [now auto with helpers |]);
    try constructor; eapply IH; (reflexivity || eassumption).
Qed.

Lemma dispatch_ranked (pm : partitionManager) (script : list loop_step)
    (pm' : partitionManager) (tr : trace) :
  dispatch pm script = Some (pm', tr) -> Forall (ranked 3) tr.
Proof.
  revert pm pm' tr. induction script as [|st rest IH]; intros pm pm' tr H;
    [discriminate |].
  simpl in H. branches H;
    repeat (constructor; [now auto with helpers |]);
    try constructor; eapply IH; (reflexivity || eassumption).
Qed.

Lemma drain_trace_ranked (pm : partitionManager) (rs : run_script) :
  Forall (ranked 5) (drain_trace pm rs).
Proof.
  unfold drain_trace, run_deferred_call, waitForProcessing.
  destruct (offsetManager pm); simpl.
  - unfold select_done_or_timeout.
    repeat match goal with
           | |- context [if ?b then _ else _] => destruct b
           | |- context [match ?o with Some _ => _ | None => _ end] => destruct o
           end;
      repeat (constructor; [now auto with helpers |]); constructor.
  - repeat constructor; now left.
Qed.

Lemma ordered_from_nil (k : nat) : ordered_from k [].
Proof. split; constructor. Qed.

Lemma ordered_from_weaken (k k' : nat) (tr : trace) :
  (k' <= k)%nat -> ordered_from k tr -> ordered_from k' tr.
Proof.
  intros Hk [Hs Hf]. split; [exact Hs |].
  eapply Forall_impl; [| exact Hf]. simpl. intros; lia.
Qed.

Lemma ordered_from_cons (k : nat) (e : event) (tr : trace) :
  ranked k e -> ordered_from k tr -> ordered_from k (e :: tr).
Proof.
  intros [He | He] [Hs Hf]; unfold ordered_from, ranks; simpl; rewrite He; simpl.
  - now split.
  - split; constructor; auto.
Qed.

Lemma ordered_from_block (k : nat) (a tr : trace) :
  Forall (ranked k) a -> ordered_from k tr -> ordered_from k (a ++ tr).
Proof.
  induction 1 as [|e a He _ IH]; intros Htr; simpl; [exact Htr |].
  apply ordered_from_cons; auto.
Qed.

(** Closes [ordered_from k tr] for a trace made of the blocks of a path. *)
Ltac in_order :=
  repeat first
    [ apply ordered_from_nil
    | apply ordered_from_block;
      [ first [ eapply claimPartition_ranked; eassumption
              | eapply startPartitionOffsetManager_ranked; eassumption
              | eapply startPartitionConsumer_ranked; eassumption
              | eapply dispatch_ranked; eassumption
              | apply drain_trace_ranked ] |]
    | apply ordered_from_cons; [now auto with helpers |]
    | match goal with
      | |- ordered_from ?k _ =>
          apply (ordered_from_weaken (S k) k); [lia |]
      end ].

(** C9, as the code has it: the steps of [run] come in the order claiming,
    starting the offset manager, starting the consumer, consuming, closing the
    consumer, waiting for processing, closing the offset manager, releasing
    the claim, done.  The wait for processing therefore comes after the
    consumer is closed, and before the offset manager is closed and the claim
    released. *)
Theorem run_steps_in_order (pm : partitionManager) (rs : run_script)
    (pm' : partitionManager) (tr : trace) :
  run pm rs = Some (pm', tr) ->
  StronglySorted le (ranks tr)
  /\ exists tr0, tr = tr0 ++ [EDone].
Proof.
  intros H. apply run_inv in H. split.
  - enough (O : ordered_from 0 tr) by apply O.
    destruct H; cbn [app]; in_order.
  - destruct H.
    + exists (tr1 ++ [EKill (Some err)]). now rewrite <- app_assoc.
    + eexists (tr1 ++ tr2 ++ [EKill (Some ErrDying)] ++ [_]).
      now rewrite <- !app_assoc.
    + eexists (tr1 ++ tr2 ++ [_; _] ++ tr4 ++ [_] ++ drain_trace _ rs ++ [_; _]).
      now rewrite <- !app_assoc.
    + eexists (tr1 ++ tr2 ++ [_; _] ++ tr4 ++ tr5 ++ [_]
                   ++ drain_trace _ rs ++ [_; _]).
      now rewrite <- !app_assoc.
Qed.

Lemma run_steps_in_order_witness :
  exists pm' tr,
    run pm_new rs_consumed = Some (pm', tr)
    /\ StronglySorted le (ranks tr)
    /\ exists tr0, tr = tr0 ++ [EDone].
Proof.
  eexists. eexists. split; [reflexivity |].
  eapply (run_steps_in_order pm_new rs_consumed). reflexivity.
Defined.

(** C9 as the specification words it fails: when the dispatch loop is
    interrupted, the consumer is closed (a [Releasing] action) and only then
    does the wait for processing ([Draining]) begin. *)
Lemma consumer_closed_before_drain :
  ~ (forall pm rs pm' tr,
        run pm rs = Some (pm', tr) ->
        StronglySorted le (map state_index (states tr))).
Proof.
  intros H. specialize (H pm_new rs_consumed _ _ eq_refl).
  vm_compute in H.
  do 9 (apply StronglySorted_inv in H as [H _]).
  apply StronglySorted_inv in H as [_ F].
  apply Forall_inv in F. lia.
Qed.

(** ** The last consumed offset *)

Lemma replay_app (a b : trace) (pm : partitionManager) :
  replay (a ++ b) pm = replay b (replay a pm).
Proof. apply fold_left_app. Qed.

Lemma claimPartition_replay (pm : partitionManager) (script : list claim_step)
    (r : option error) (pm' : partitionManager) (tr : trace) :
  claimPartition pm script = Some (r, pm', tr) -> replay tr pm = pm'.
Proof.
  revert r pm' tr. induction script as [|s rest IH]; intros r pm' tr H;
    [discriminate |].
  simpl in H. branches H; try reflexivity;
    cbn [replay fold_left apply_event]; eapply IH; (reflexivity || eassumption).
Qed.

Lemma startPartitionOffsetManager_replay (pm : partitionManager)
    (script : list om_step) (r : option PartitionOffsetManager * option error)
    (pm' : partitionManager) (tr : trace) :
  startPartitionOffsetManager pm script = Some (r, pm', tr) -> replay tr pm = pm'.
Proof.
  revert r pm' tr. induction script as [|s rest IH]; intros r pm' tr H;
    [discriminate |].
  simpl in H. branches H; try reflexivity;
    cbn [replay fold_left apply_event]; eapply IH; (reflexivity || eassumption).
Qed.

Lemma startPartitionConsumer_replay (pm : partitionManager) (start : Z)
    (script : list pc_step) (r : option PartitionConsumer * option error)
    (pm' : partitionManager) (tr : trace) :
  startPartitionConsumer pm start script = Some (r, pm', tr) -> replay tr pm = pm'.
Proof.
  revert start r pm' tr. induction script as [|s rest IH]; intros start r pm' tr H;
    [discriminate |].
  simpl in H. branches H; try reflexivity;
    cbn [replay fold_left apply_event]; eapply IH; (reflexivity || eassumption).
Qed.

Lemma dispatch_replay (pm : partitionManager) (script : list loop_step)
    (pm' : partitionManager) (tr : trace) :
  dispatch pm script = Some (pm', tr) -> replay tr pm = pm'.
Proof.
  revert pm pm' tr. induction script as [|s rest IH]; intros pm pm' tr H;
    [discriminate |].
  simpl in H. branches H; try reflexivity;
    cbn [replay fold_left apply_event]; eapply IH; (reflexivity || eassumption).
Qed.

Lemma drain_trace_replay (pm0 : partitionManager) (rs : run_script)
    (pm : partitionManager) :
  replay (drain_trace pm0 rs) pm = pm.
Proof.
  unfold drain_trace, run_deferred_call, waitForProcessing.
  destruct (offsetManager pm0); simpl; [| reflexivity].
  unfold select_done_or_timeout.
  repeat match goal with
         | |- context [if ?b then _ else _] => destruct b
         | |- context [match ?o with Some _ => _ | None => _ end] => destruct o
         end; reflexivity.
Qed.

(** The trace of [run] accounts for every change of the manager. *)
Lemma run_replay (pm : partitionManager) (rs : run_script)
    (pm' : partitionManager) (tr : trace) :
  run pm rs = Some (pm', tr) -> replay tr pm = pm'.
Proof.
  intros H. apply run_inv in H.
  destruct H;
    repeat match goal with
           | E : claimPartition _ _ = Some _ |- _ => apply claimPartition_replay in E
           | E : startPartitionOffsetManager _ _ = Some _ |- _ =>
               apply startPartitionOffsetManager_replay in E
           | E : startPartitionConsumer _ _ _ = Some _ |- _ =>
               apply startPartitionConsumer_replay in E
           | E : dispatch _ _ = Some _ |- _ => apply dispatch_replay in E
           end;
    repeat (rewrite replay_app;
            repeat match goal with
                   | E : replay _ _ = _ |- _ => rewrite E
                   end;
            rewrite ?drain_trace_replay; cbn [replay fold_left apply_event]);
    try reflexivity; congruence.
Qed.

Lemma stores_app (a b : trace) : stores (a ++ b) = stores a ++ stores b.
Proof. apply flat_map_app. Qed.

Lemma forwarded_app (a b : trace) : forwarded (a ++ b) = forwarded a ++ forwarded b.
Proof. apply flat_map_app. Qed.

(** Only the dispatch loop forwards messages and stores offsets. *)
Lemma ranked_elsewhere (k : nat) (tr : trace) :
  k <> 3%nat -> Forall (ranked k) tr -> stores tr = [] /\ forwarded tr = [].
Proof.
  intros Hk. induction 1 as [|e tr [He | He] _ [IHs IHf]]; [now split | |];
    unfold stores, forwarded in *; simpl; rewrite IHs, IHf;
    destruct e; simpl in *; try discriminate; try (now split);
    injection He as <-; now elim Hk.
Qed.

Lemma last_cons {A : Type} (l : list A) (a d : A) : last (a :: l) d = last l a.
Proof.
  revert a d. induction l as [|b l IH]; intros a d; [reflexivity |].
  change (last (a :: b :: l) d) with (last (b :: l) d).
  now rewrite !IH.
Qed.

(** At every moment the field holds the offset stored last. *)
Lemma replay_lastConsumedOffset (tr : trace) (pm : partitionManager) :
  lastConsumedOffset (replay tr pm) = last (stores tr) (lastConsumedOffset pm).
Proof.
  revert pm. induction tr as [|e tr IH]; intros pm; [reflexivity |].
  change (replay (e :: tr) pm) with (replay tr (apply_event pm e)).
  rewrite IH. destruct e; try reflexivity.
  change (stores (EStoreLastConsumed o :: tr)) with (o :: stores tr).
  now rewrite last_cons.
Qed.

Lemma dispatch_stores_forwarded (pm : partitionManager) (script : list loop_step)
    (pm' : partitionManager) (tr : trace) :
  dispatch pm script = Some (pm', tr) ->
  stores tr = map msg_Offset (forwarded tr).
Proof.
  revert pm pm' tr. induction script as [|s rest IH]; intros pm pm' tr H;
    [discriminate |].
  simpl in H. branches H; try reflexivity;
    unfold stores, forwarded; simpl; try f_equal;
    eapply IH; (reflexivity || eassumption).
Qed.

Lemma dispatch_stores_delivered (P : Z -> Prop) (pm : partitionManager)
    (script : list loop_step) (pm' : partitionManager) (tr : trace) :
  dispatch pm script = Some (pm', tr) ->
  Forall P (map msg_Offset (delivered script)) ->
  Forall P (stores tr).
Proof.
  revert pm pm' tr. induction script as [|s rest IH]; intros pm pm' tr H HP;
    [discriminate |].
  simpl in H. branches H; try (now constructor);
    unfold stores, delivered in *; simpl in *;
    try (apply Forall_inv_tail in HP as HP'; apply Forall_inv in HP;
         constructor; [exact HP |]);
    eapply IH; eauto.
Qed.

Lemma dispatch_stores_sorted (pm : partitionManager) (script : list loop_step)
    (pm' : partitionManager) (tr : trace) :
  dispatch pm script = Some (pm', tr) ->
  StronglySorted Z.le (map msg_Offset (delivered script)) ->
  StronglySorted Z.le (stores tr).
Proof.
  revert pm pm' tr. induction script as [|s rest IH]; intros pm pm' tr H HS;
    [discriminate |].
  simpl in H. branches H; try (now constructor);
    try (unfold stores; simpl; eapply IH; [eassumption | exact HS]).
  change (delivered (LoopMessage m Forwarded :: rest))
    with (m :: delivered rest) in HS.
  simpl in HS. apply StronglySorted_inv in HS as [HS HF].
  change (StronglySorted Z.le (msg_Offset m :: stores t0)).
  constructor.
  - eapply IH; eauto.
  - eapply dispatch_stores_delivered; eauto.
Qed.

(** C8: when the consumer delivers messages with valid (non-negative) offsets
    in non-decreasing order to a manager that starts with a negative "none",
    the values [lastConsumedOffset] takes during [run] never decrease; the
    field is stored once for every forwarded message, with that message's
    offset. *)
Theorem lastConsumedOffset_never_decreases (pm : partitionManager)
    (rs : run_script) (pm' : partitionManager) (tr : trace) :
  run pm rs = Some (pm', tr) ->
  lastConsumedOffset pm < 0 ->
  Forall (fun m => 0 <= msg_Offset m) (delivered (rs_loop rs)) ->
  StronglySorted Z.le (map msg_Offset (delivered (rs_loop rs))) ->
  StronglySorted Z.le (lastConsumedOffset pm :: stores tr)
  /\ stores tr = map msg_Offset (forwarded tr)
  /\ (forall pre post,
         tr = pre ++ post ->
         lastConsumedOffset (replay pre pm)
         = last (stores pre) (lastConsumedOffset pm))
  /\ lastConsumedOffset pm' = last (stores tr) (lastConsumedOffset pm).
Proof.
  intros H Hnone Hvalid Hsorted.
  pose proof (run_replay _ _ _ _ H) as Hreplay.
  apply run_inv in H.
  assert (Hloop : (stores tr = [] /\ forwarded tr = [])
                  \/ exists pm4 pm5 tr5,
                       dispatch pm4 (rs_loop rs) = Some (pm5, tr5)
                       /\ stores tr = stores tr5
                       /\ forwarded tr = forwarded tr5).
  { destruct H;
      repeat match goal with
             | E : claimPartition _ _ = Some _ |- _ =>
                 apply claimPartition_ranked in E;
                 apply (ranked_elsewhere 0) in E as [? ?]; [| lia]
             | E : startPartitionOffsetManager _ _ = Some _ |- _ =>
                 apply startPartitionOffsetManager_ranked in E;
                 apply (ranked_elsewhere 1) in E as [? ?]; [| lia]
             | E : startPartitionConsumer _ _ _ = Some _ |- _ =>
                 apply startPartitionConsumer_ranked in E;
                 apply (ranked_elsewhere 2) in E as [? ?]; [| lia]
             end;
      try match goal with
          | |- context [drain_trace ?p rs] =>
              destruct (ranked_elsewhere 5 (drain_trace p rs)) as [? ?];
              [lia | apply drain_trace_ranked |]
          end.
    1-3: left; rewrite !stores_app, !forwarded_app;
         repeat match goal with
                | E : stores _ = [] |- _ => rewrite E; clear E
                | E : forwarded _ = [] |- _ => rewrite E; clear E
                end; now split.
    right. exists pm4, pm5, tr5. split; [assumption |].
    rewrite !stores_app, !forwarded_app;
      repeat match goal with
             | E : stores _ = [] |- _ => rewrite E; clear E
             | E : forwarded _ = [] |- _ => rewrite E; clear E
             end; simpl; rewrite !app_nil_r; now split. }
  assert (Hhist : StronglySorted Z.le (lastConsumedOffset pm :: stores tr)
                  /\ stores tr = map msg_Offset (forwarded tr)).
  { destruct Hloop as [[-> ->] | [pm4 [pm5 [tr5 [Hd [-> ->]]]]]].
    - split; [repeat constructor | reflexivity].
    - split; [| eapply dispatch_stores_forwarded; eauto].
      constructor; [eapply dispatch_stores_sorted; eauto |].
      eapply dispatch_stores_delivered; [exact Hd |].
      rewrite Forall_map. eapply Forall_impl; [| exact Hvalid].
      simpl. intros; lia. }
  destruct Hhist as [Hs Hf]. repeat split; try assumption.
  - intros pre post _. apply replay_lastConsumedOffset.
  - rewrite <- Hreplay. apply replay_lastConsumedOffset.
Qed.

Lemma lastConsumedOffset_never_decreases_witness :
  exists pm' tr,
    run pm_new rs_three_messages = Some (pm', tr)
    /\ StronglySorted Z.le (lastConsumedOffset pm_new :: stores tr)
    /\ stores tr = map msg_Offset (forwarded tr)
    /\ (forall pre post,
           tr = pre ++ post ->
           lastConsumedOffset (replay pre pm_new)
           = last (stores pre) (lastConsumedOffset pm_new))
    /\ lastConsumedOffset pm' = last (stores tr) (lastConsumedOffset pm_new).
Proof.
  eexists. eexists. split; [reflexivity |].
  eapply (lastConsumedOffset_never_decreases pm_new rs_three_messages).
  - reflexivity.
  - simpl. lia.
  - repeat constructor; simpl; lia.
  - repeat constructor; simpl; lia.
Defined.

(** ** Binding the offset manager *)

Lemma ranked_not_bind (k : nat) (tr : trace) :
  k <> 1%nat -> Forall (ranked k) tr -> Forall not_bind tr.
Proof.
  intros Hk H. eapply Forall_impl; [| exact H].
  intros e [He | He]; destruct e; simpl; try exact I; try discriminate He.
  apply Hk. simpl in He. congruence.
Qed.

Lemma startPartitionOffsetManager_not_bind (pm : partitionManager)
    (script : list om_step) (r : option PartitionOffsetManager * option error)
    (pm' : partitionManager) (tr : trace) :
  startPartitionOffsetManager pm script = Some (r, pm', tr) ->
  Forall not_bind tr
  /\ (snd r = None -> exists tr0, tr = tr0 ++ [EManagePartition None]).
Proof.
  revert r pm' tr. induction script as [|s rest IH]; intros r pm' tr H;
    [discriminate |].
  simpl in H. branches H.
  - destruct (IH p1 p2 t0 eq_refl) as [Hn He]. split.
    + repeat (constructor; [exact I |]). exact Hn.
    + intros Hr. destruct (He Hr) as [tr0 ->].
      now exists (EManagePartition (Some e) :: ETimer (1 * Second) :: tr0).
  - split; [repeat constructor | simpl; discriminate].
  - split; [repeat constructor |]. intros _. now exists [].
Qed.

Lemma not_bind_In (tr : trace) (h : PartitionOffsetManager) :
  Forall not_bind tr -> ~ In (EBindOffsetManager h) tr.
Proof.
  intros H Hin. rewrite Forall_forall in H. exact (H _ Hin).
Qed.

Lemma replay_not_bind (tr : trace) (pm : partitionManager) :
  Forall not_bind tr -> offsetManager (replay tr pm) = offsetManager pm.
Proof.
  intros H. revert pm. induction H as [|e tr He _ IH]; intros pm; [reflexivity |].
  change (replay (e :: tr) pm) with (replay tr (apply_event pm e)).
  rewrite IH. destruct e; try reflexivity. elim He.
Qed.

Lemma replay_stays_bound (tr : trace) (pm : partitionManager) :
  offsetManager pm <> None -> offsetManager (replay tr pm) <> None.
Proof.
  revert pm. induction tr as [|e tr IH]; intros pm H; [exact H |].
  change (replay (e :: tr) pm) with (replay tr (apply_event pm e)).
  apply IH. destruct e; simpl; try exact H. discriminate.
Qed.

Lemma replay_bound (tr : trace) (pm : partitionManager)
    (h : PartitionOffsetManager) :
  In (EBindOffsetManager h) tr -> offsetManager (replay tr pm) <> None.
Proof.
  revert pm. induction tr as [|e tr IH]; intros pm Hin; [destruct Hin |].
  destruct Hin as [-> | Hin].
  - change (replay (EBindOffsetManager h :: tr) pm)
      with (replay tr (set_offsetManager h pm)).
    apply replay_stays_bound. discriminate.
  - change (replay (e :: tr) pm) with (replay tr (apply_event pm e)). now apply IH.
Qed.

Lemma bind_beyond (A B pre post : trace) (h : PartitionOffsetManager) :
  A ++ B = pre ++ post ->
  Forall not_bind A ->
  In (EBindOffsetManager h) pre ->
  exists l, pre = A ++ l.
Proof.
  intros E HA Hin. apply app_eq_app in E as [l [[-> _] | [-> _]]].
  - elim (not_bind_In _ h HA). apply in_or_app. now left.
  - now exists l.
Qed.

(** In a trace of [run] the offset manager is bound only after
    [ManagePartition] succeeded. *)
Lemma run_binds_after_start (pm : partitionManager) (rs : run_script)
    (pm' : partitionManager) (tr pre post : trace) (h : PartitionOffsetManager) :
  run pm rs = Some (pm', tr) ->
  tr = pre ++ post ->
  In (EBindOffsetManager h) pre ->
  In (EManagePartition None) pre.
Proof.
  intros H E Hin. apply run_inv in H.
  assert (Hdrain : forall p, Forall not_bind (drain_trace p rs)).
  { intros p. apply (ranked_not_bind 5); [lia | apply drain_trace_ranked]. }
  destruct H as [err pm1 tr1 H1
                | pm1 tr1 pm2 tr2 H1 H2
                | pm1 tr1 h' pm2 tr2 pm4 tr4 H1 H2 H4
                | pm1 tr1 h' pm2 tr2 pc pm4 tr4 pm5 tr5 H1 H2 H4 H5];
    apply claimPartition_ranked in H1; apply (ranked_not_bind 0) in H1; try lia;
    try (apply startPartitionOffsetManager_not_bind in H2 as [H2 H2']).
  1-2: exfalso;
       refine (not_bind_In _ h _ (in_or_app pre post _ (or_introl Hin)));
       rewrite <- E; repeat (apply Forall_app; split); auto; repeat constructor.
  all: destruct (H2' eq_refl) as [tr0 ->];
    rewrite (app_assoc tr1) in E;
    destruct (bind_beyond _ _ _ _ h E) as [l ->];
      [apply Forall_app; now split | exact Hin |];
    apply in_or_app; left; apply in_or_app; right;
    apply in_or_app; right; now left.
Qed.

(** C10: [ack] on a manager whose offset manager is not bound dereferences
    nil, and this is the only way in which it does.  During [run] the handle
    is unbound at every moment before [ManagePartition] has succeeded, so an
    [ack] at such a moment panics; once bound it stays bound. *)
Theorem ack_before_bind_dereferences_nil :
  (forall pm store o,
      offsetManager pm = None
      <-> ack o (pm, store) = Panicked NilDereference (pm, store))
  /\ (forall pm rs pm' tr pre post store o,
         offsetManager pm = None ->
         run pm rs = Some (pm', tr) ->
         tr = pre ++ post ->
         ~ In (EManagePartition None) pre ->
         ack o (replay pre pm, store)
         = Panicked NilDereference (replay pre pm, store))
  /\ (forall pm rs pm' tr pre post h store o,
         run pm rs = Some (pm', tr) ->
         tr = pre ++ post ->
         In (EBindOffsetManager h) pre ->
         In (EManagePartition None) pre
         /\ ack o (replay pre pm, store)
            <> Panicked NilDereference (replay pre pm, store)).
Proof.
  assert (Hiff : forall pm store o,
             offsetManager pm = None
             <-> ack o (pm, store) = Panicked NilDereference (pm, store)).
  { intros pm store o. split; [apply ack_unbound |].
    unfold ack. destruct (offsetManager pm); [| reflexivity].
    destruct (negb _ && _); [destruct (processingDone pm); simpl |];
      discriminate. }
  split; [exact Hiff | split].
  - intros pm rs pm' tr pre post store o Hnil H E Hstart.
    apply ack_unbound. rewrite replay_not_bind; [exact Hnil |].
    apply Forall_forall. intros e He. destruct e; try exact I.
    apply Hstart. eapply run_binds_after_start; eauto.
  - intros pm rs pm' tr pre post h store o H E Hin. split.
    + eapply run_binds_after_start; eauto.
    + intros Hp. apply Hiff in Hp. exact (replay_bound _ _ _ Hin Hp).
Qed.

Lemma ack_before_bind_dereferences_nil_witness :
  ack 42 (replay [EWatchPartitionOwner None None; EClaimPartition None] pm_new, [])
  = Panicked NilDereference
      (replay [EWatchPartitionOwner None None; EClaimPartition None] pm_new, []).
Proof.
  eapply (proj1 (proj2 ack_before_bind_dereferences_nil) pm_new rs_consumed).
  - reflexivity.
  - reflexivity.
  - reflexivity.
  - simpl. intros [H | [H | []]]; discriminate H.
Defined.

(** ** The offset at which the consumer is started *)

Lemma first_attempt_app (a b : trace) :
  first_attempt (a ++ b)
  = match first_attempt a with
    | Some o => Some o
    | None => first_attempt b
    end.
Proof.
  induction a as [|e a IH]; [reflexivity |]. destruct e; simpl; auto.
Qed.

Lemma ranked_no_attempt (k : nat) (tr : trace) :
  k <> 2%nat -> Forall (ranked k) tr -> first_attempt tr = None.
Proof.
  intros Hk. induction 1 as [|e tr [He | He] _ IH]; [reflexivity | |];
    destruct e; simpl in *; try discriminate; try exact IH.
  elim Hk. congruence.
Qed.

Lemma startPartitionConsumer_first_attempt (pm : partitionManager) (start : Z)
    (script : list pc_step) (r : option PartitionConsumer * option error)
    (pm' : partitionManager) (tr : trace) :
  startPartitionConsumer pm start script = Some (r, pm', tr) ->
  first_attempt tr = Some start.
Proof.
  destruct script as [|s rest]; intros H; [discriminate |].
  simpl in H. branches H; reflexivity.
Qed.

(** C5: without a committed offset (a negative answer of [Offset()]) the
    consumer is started at the configured initial offset; with a committed
    offset [k] it is started at [k + 1], the addition being that of [int64]
    (exact for every [k] below the largest [int64]).  The first
    [ConsumePartition] call of [run] is made at that offset.  Committed offset
    41 with the policy "newest" starts at 42. *)
Theorem run_starts_after_committed_offset (cfg : config) (k : Z) :
  (k < 0 -> initialOffset cfg k = Offsets_Initial cfg)
  /\ (0 <= k -> initialOffset cfg k = add64 k 1)
  /\ (0 <= k < int64_max -> initialOffset cfg k = k + 1)
  /\ (forall pm rs pm' tr o,
         cm_config (parent pm) = cfg ->
         rs_committed rs = k ->
         run pm rs = Some (pm', tr) ->
         first_attempt tr = Some o ->
         o = initialOffset cfg k)
  /\ initialOffset (cm_config cm_newest) 41 = 42.
Proof.
  destruct (initialOffset_cases cfg k) as [H1 [H2 H3]].
  repeat split; try assumption.
  intros pm rs pm' tr o <- <- H Ho. apply run_inv in H.
  destruct H as [err pm1 tr1 E1
                | pm1 tr1 pm2 tr2 E1 E2
                | pm1 tr1 h pm2 tr2 pm4 tr4 E1 E2 E4
                | pm1 tr1 h pm2 tr2 pc pm4 tr4 pm5 tr5 E1 E2 E4 E5];
    pose proof (claimPartition_same_fields _ _ _ _ _ E1) as [P1 _];
    apply claimPartition_ranked in E1; apply (ranked_no_attempt 0) in E1; try lia;
    try (pose proof (startPartitionOffsetManager_same_fields _ _ _ _ _ E2) as [P2 _];
         apply startPartitionOffsetManager_ranked in E2;
         apply (ranked_no_attempt 1) in E2; try lia);
    try apply startPartitionConsumer_first_attempt in E4;
    repeat (rewrite first_attempt_app in Ho; rewrite ?E1, ?E2, ?E4 in Ho;
            simpl in Ho);
    try discriminate Ho;
    injection Ho as <-; congruence.
Qed.

Lemma run_starts_after_committed_offset_witness :
  initialOffset (cm_config cm_newest) (-1) = OffsetNewest
  /\ initialOffset (cm_config cm_newest) 41 = add64 41 1
  /\ initialOffset (cm_config cm_newest) 41 = 41 + 1
  /\ 42 = initialOffset (cm_config cm_newest) 41.
Proof.
  destruct (run_starts_after_committed_offset (cm_config cm_newest) (-1))
    as [Hn _].
  destruct (run_starts_after_committed_offset (cm_config cm_newest) 41)
    as [_ [Hw [He [Hr _]]]].
  split; [apply Hn; lia |].
  split; [apply Hw; lia |].
  split; [apply He; unfold int64_max; lia |].
  eapply (Hr pm_new rs_consumed); reflexivity.
Defined.

(** ** Scenarios *)

(** Interrupted while another instance owns the partition: the manager ends
    with [tomb.ErrDying] and neither claims nor releases. *)
Example run_interrupted_claiming :
  option_map snd (run pm_new rs_interrupted_claiming)
  = Some [EWatchPartitionOwner (Some "instance-2"%string) None; EDying;
          EKill (Some ErrDying); EDone].
Proof. reflexivity. Qed.

(** Interrupted while the offset manager is starting: the claim is released,
    nothing else was acquired. *)
Example run_interrupted_starting :
  option_map snd (run pm_new rs_interrupted_starting)
  = Some [EWatchPartitionOwner None None; EClaimPartition None;
          EManagePartition (Some (ErrOther 1)); EDying;
          EKill (Some ErrDying); EReleasePartition None; EDone].
Proof. reflexivity. Qed.

(** Offsets 10, 11 and 12 are forwarded, 11 is committed when the manager is
    interrupted: the consumer is closed, the manager waits for offset 12, which
    is acknowledged after two seconds, and then closes the offset manager and
    releases the claim. *)
Example run_three_messages :
  option_map snd (run pm_new rs_three_messages)
  = Some [EWatchPartitionOwner None None; EClaimPartition None;
          EManagePartition None; EBindOffsetManager 7%nat; EInitialOffset 9;
          EConsumePartition 10 None;
          EMessage {| msg_Offset := 10 |}; EForwardMessage {| msg_Offset := 10 |};
          EStoreLastConsumed 10;
          EMessage {| msg_Offset := 11 |}; EForwardMessage {| msg_Offset := 11 |};
          EStoreLastConsumed 11;
          EMessage {| msg_Offset := 12 |}; EForwardMessage {| msg_Offset := 12 |};
          EStoreLastConsumed 12;
          EDying; EClosePartitionConsumer 9%nat None;
          EDrainOffsets 11 12; EDrainSignalled (2 * Second);
          ECloseOffsetManager 7%nat; EReleasePartition None; EDone].
Proof. reflexivity. Qed.

(** The dispatch loop may still forward a message after the manager was
    interrupted.  Offset 11 is acknowledged, offset 12 is forwarded, offset 12
    is acknowledged: the second acknowledgement closes the closed signal. *)
Example ack_after_late_forward :
  exists pm1 store1 pm2 tr,
    ack 11 (pm_draining_11, []) = Returned (pm1, store1)
    /\ processingDone pm1 = ChanClosed
    /\ dispatch pm1 [step_message 12; LoopDying] = Some (pm2, tr)
    /\ ack 12 (pm2, store1)
       = Panicked CloseOfClosedChannel (pm2, [(7%nat, 11); (7%nat, 12)]).
Proof. repeat eexists; reflexivity. Qed.

(** * Further properties *)

(** ** claimPartition *)

Lemma claimPartition_reads_first (pm : partitionManager)
    (script : list claim_step) (r : option error) (pm' : partitionManager)
    (tr : trace) :
  claimPartition pm script = Some (r, pm', tr) -> reads_next tr = true.
Proof.
  destruct script as [|s rest]; intros H; [discriminate |].
  simpl in H. branches H; reflexivity.
Qed.

Lemma claims_after_free_read_read (prev : option event) (tr : trace) :
  reads_next tr = true ->
  claims_after_free_read None tr = true ->
  claims_after_free_read prev tr = true.
Proof. destruct tr as [|[] tr]; try discriminate; auto. Qed.

(** X1: [claimPartition] calls [ClaimPartition] only right after a read that
    succeeded and found the partition without owner. *)
Theorem claimPartition_claims_free_partitions_only (pm : partitionManager)
    (script : list claim_step) (r : option error) (pm' : partitionManager)
    (tr : trace) :
  claimPartition pm script = Some (r, pm', tr) ->
  claims_after_free_read None tr = true.
Proof.
  revert r pm' tr. induction script as [|s rest IH]; intros r pm' tr H;
    [discriminate |].
  simpl in H.
  destruct (cs_err s) eqn:Eerr.
  { destruct (cs_wake s).
    - destruct (claimPartition pm rest) as [[[r1 pm1] tr1]|] eqn:E1;
        [| discriminate].
      injection H as <- <- <-. simpl.
      apply claims_after_free_read_read;
        [eapply claimPartition_reads_first; eassumption
        | exact (IH r1 pm1 tr1 eq_refl)].
    - injection H as <- <- <-. reflexivity. }
  destruct (cs_owner s) as [owner|] eqn:Eown.
  - destruct (String.eqb owner (instance_ID (parent pm))).
    + injection H as <- <- <-. reflexivity.
    + destruct (cs_wake s).
      * destruct (claimPartition pm rest) as [[[r1 pm1] tr1]|] eqn:E1;
          [| discriminate].
        injection H as <- <- <-. simpl.
        apply claims_after_free_read_read;
          [eapply claimPartition_reads_first; eassumption
          | exact (IH r1 pm1 tr1 eq_refl)].
      * injection H as <- <- <-. reflexivity.
  - destruct (cs_claim s) as [ce|].
    + destruct (claimPartition pm rest) as [[[r1 pm1] tr1]|] eqn:E1;
        [| discriminate].
      injection H as <- <- <-. simpl.
      apply claims_after_free_read_read;
        [eapply claimPartition_reads_first; eassumption
        | exact (IH r1 pm1 tr1 eq_refl)].
    + injection H as <- <- <-. reflexivity.
Qed.

Lemma claimPartition_claims_free_partitions_only_witness :
  exists r pm' tr,
    claimPartition pm_new claim_script_contended = Some (r, pm', tr)
    /\ claims_after_free_read None tr = true.
Proof.
  do 3 eexists. split; [reflexivity |].
  eapply (claimPartition_claims_free_partitions_only pm_new claim_script_contended).
  reflexivity.
Defined.

(** X2: the steps of [claimPartition] follow one another as its loop says:
    one second of wait after a failed read, the watch after a read that finds
    another owner, the claim after a read that finds none, a new read right
    after a wait, a change of owner or a failed claim (no wait there); a read
    that finds this instance, a successful claim and dying are last. *)
Theorem claimPartition_discipline (pm : partitionManager)
    (script : list claim_step) (r : option error) (pm' : partitionManager)
    (tr : trace) :
  claimPartition pm script = Some (r, pm', tr) ->
  claim_discipline (instance_ID (parent pm)) tr = true.
Proof.
  revert r pm' tr. induction script as [|s rest IH]; intros r pm' tr H;
    [discriminate |].
  simpl in H.
  destruct (cs_err s) eqn:Eerr.
  { destruct (cs_wake s).
    - destruct (claimPartition pm rest) as [[[r1 pm1] tr1]|] eqn:E1;
        [| discriminate].
      injection H as <- <- <-. simpl.
      rewrite (claimPartition_reads_first _ _ _ _ _ E1), (IH r1 pm1 tr1 eq_refl).
      now destruct (cs_owner s).
    - injection H as <- <- <-. simpl. now destruct (cs_owner s). }
  destruct (cs_owner s) as [owner|] eqn:Eown.
  - destruct (String.eqb owner (instance_ID (parent pm))) eqn:Eself.
    + injection H as <- <- <-. simpl. now rewrite Eself.
    + destruct (cs_wake s).
      * destruct (claimPartition pm rest) as [[[r1 pm1] tr1]|] eqn:E1;
          [| discriminate].
        injection H as <- <- <-. simpl.
        rewrite Eself, (claimPartition_reads_first _ _ _ _ _ E1), (IH r1 pm1 tr1 eq_refl).
        reflexivity.
      * injection H as <- <- <-. simpl. now rewrite Eself.
  - destruct (cs_claim s) as [ce|].
    + destruct (claimPartition pm rest) as [[[r1 pm1] tr1]|] eqn:E1;
        [| discriminate].
      injection H as <- <- <-. simpl.
      rewrite (claimPartition_reads_first _ _ _ _ _ E1), (IH r1 pm1 tr1 eq_refl).
      reflexivity.
    + injection H as <- <- <-. reflexivity.
Qed.

Lemma claimPartition_discipline_witness :
  exists r pm' tr,
    claimPartition pm_new claim_script_contended = Some (r, pm', tr)
    /\ claim_discipline "instance-1" tr = true.
Proof.
  do 3 eexists. split; [reflexivity |].
  eapply (claimPartition_discipline pm_new claim_script_contended).
  reflexivity.
Defined.

Lemma count_cons (p : event -> bool) (e : event) (tr : trace) :
  count p (e :: tr) = ((if p e then 1 else 0) + count p tr)%nat.
Proof. unfold count. simpl. now destruct (p e). Qed.

(** X3: the result of [claimPartition] tells how it ended.  With a nil error
    its last two steps were the read that found no owner and the successful
    claim, the only successful claim of the call, and the manager is as it
    was; with an error it has claimed nothing, and [tomb.ErrDying] is returned
    right after the dying channel was read. *)
Theorem claimPartition_result_tells_the_end (pm : partitionManager)
    (script : list claim_step) (r : option error) (pm' : partitionManager)
    (tr : trace) :
  claimPartition pm script = Some (r, pm', tr) ->
  match r with
  | None =>
      pm' = pm
      /\ count is_successful_claim tr = 1%nat
      /\ exists tr0,
           tr = tr0 ++ [EWatchPartitionOwner None None; EClaimPartition None]
  | Some e =>
      count is_successful_claim tr = 0%nat
      /\ ((e = ErrDying /\ pm' = observe_dying pm
           /\ exists tr0, tr = tr0 ++ [EDying])
          \/ (e = ErrAlreadyOwner (partition_key pm) /\ pm' = pm))
  end.
Proof.
  assert (Hcons : forall (r1 : option error) (pm1 : partitionManager)
                         (a b : event) (tr1 : trace),
             is_successful_claim a = false -> is_successful_claim b = false ->
             match r1 with
             | None =>
                 pm1 = pm /\ count is_successful_claim tr1 = 1%nat
                 /\ exists tr0,
                      tr1 = tr0 ++ [EWatchPartitionOwner None None;
                                    EClaimPartition None]
             | Some e =>
                 count is_successful_claim tr1 = 0%nat
                 /\ ((e = ErrDying /\ pm1 = observe_dying pm
                      /\ exists tr0, tr1 = tr0 ++ [EDying])
                     \/ (e = ErrAlreadyOwner (partition_key pm) /\ pm1 = pm))
             end ->
             match r1 with
             | None =>
                 pm1 = pm /\ count is_successful_claim (a :: b :: tr1) = 1%nat
                 /\ exists tr0,
                      a :: b :: tr1
                      = tr0 ++ [EWatchPartitionOwner None None;
                                EClaimPartition None]
             | Some e =>
                 count is_successful_claim (a :: b :: tr1) = 0%nat
                 /\ ((e = ErrDying /\ pm1 = observe_dying pm
                      /\ exists tr0, a :: b :: tr1 = tr0 ++ [EDying])
                     \/ (e = ErrAlreadyOwner (partition_key pm) /\ pm1 = pm))
             end).
  { intros r1 pm1 a b tr1 Ha Hb H. rewrite !count_cons, Ha, Hb. simpl.
    destruct r1 as [e|].
    - destruct H as [Hc [[He [Hp [tr0 ->]]] | Hown]]; split; auto.
      left. repeat split; auto. now exists (a :: b :: tr0).
    - destruct H as [Hp [Hc [tr0 ->]]]. repeat split; auto.
      now exists (a :: b :: tr0). }
  revert r pm' tr. induction script as [|s rest IH]; intros r pm' tr H;
    [discriminate |].
  simpl in H.
  destruct (cs_err s) eqn:Eerr.
  { destruct (cs_wake s).
    - destruct (claimPartition pm rest) as [[[r1 pm1] tr1]|] eqn:E1;
        [| discriminate].
      pose proof (IH r1 pm1 tr1 eq_refl) as IHr.
      injection H as <- <- <-. now apply Hcons.
    - injection H as <- <- <-. split; [reflexivity |]. left.
      repeat split. now eexists [_]. }
  destruct (cs_owner s) as [owner|] eqn:Eown.
  - destruct (String.eqb owner (instance_ID (parent pm))).
    + injection H as <- <- <-. split; [reflexivity |]. now right.
    + destruct (cs_wake s).
      * destruct (claimPartition pm rest) as [[[r1 pm1] tr1]|] eqn:E1;
          [| discriminate].
        pose proof (IH r1 pm1 tr1 eq_refl) as IHr.
        injection H as <- <- <-. now apply Hcons.
      * injection H as <- <- <-. split; [reflexivity |]. left.
        repeat split. now eexists [_].
  - destruct (cs_claim s) as [ce|].
    + destruct (claimPartition pm rest) as [[[r1 pm1] tr1]|] eqn:E1;
        [| discriminate].
      pose proof (IH r1 pm1 tr1 eq_refl) as IHr.
      injection H as <- <- <-. now apply Hcons.
    + injection H as <- <- <-. repeat split. now exists [].
Qed.

Lemma claimPartition_result_tells_the_end_witness :
  exists pm' tr,
    claimPartition pm_new claim_script_interrupted
    = Some (Some ErrDying, pm', tr)
    /\ count is_successful_claim tr = 0%nat
    /\ ((ErrDying = ErrDying /\ pm' = observe_dying pm_new
         /\ exists tr0, tr = tr0 ++ [EDying])
        \/ (ErrDying = ErrAlreadyOwner (partition_key pm_new) /\ pm' = pm_new)).
Proof.
  do 2 eexists. split; [reflexivity |].
  eapply (claimPartition_result_tells_the_end pm_new claim_script_interrupted
            (Some ErrDying)).
  reflexivity.
Defined.

Lemma claimPartition_decides (pm : partitionManager) (s : claim_step) :
  continues pm s = false ->
  exists res, forall rest, claimPartition pm (s :: rest) = Some res.
Proof.
  unfold continues. intros H. simpl.
  destruct (cs_err s); [destruct (cs_wake s); [discriminate | eauto] |].
  destruct (cs_owner s) as [owner|].
  - destruct (String.eqb owner _); [eauto |].
    destruct (cs_wake s); [discriminate | eauto].
  - destruct (cs_claim s); [discriminate | eauto].
Qed.

Lemma claimPartition_keeps_going (pm : partitionManager) (s : claim_step) :
  continues pm s = true ->
  exists e, forall rest,
    claimPartition pm (s :: rest)
    = match claimPartition pm rest with
      | Some (r, pm', tr) =>
          Some (r, pm', EWatchPartitionOwner (cs_owner s) (cs_err s) :: e :: tr)
      | None => None
      end.
Proof.
  unfold continues. intros H. simpl.
  destruct (cs_err s); [destruct (cs_wake s); [| discriminate] |].
  { eexists. intros rest.
    destruct (claimPartition pm rest) as [[[? ?] ?]|]; reflexivity. }
  destruct (cs_owner s) as [owner|].
  - destruct (String.eqb owner _); [discriminate |].
    destruct (cs_wake s); [| discriminate].
    eexists. intros rest.
    destruct (claimPartition pm rest) as [[[? ?] ?]|]; reflexivity.
  - destruct (cs_claim s); [| discriminate].
    eexists. intros rest.
    destruct (claimPartition pm rest) as [[[? ?] ?]|]; reflexivity.
Qed.

(** X4: [claimPartition] goes on for as long as every iteration ends in
    [continue], and returns at the first iteration that does not: what it
    returns does not depend on anything its collaborators would answer
    later. *)
Theorem claimPartition_returns_at_first_decision (pm : partitionManager) :
  (forall script,
      forallb (continues pm) script = true -> claimPartition pm script = None)
  /\ (forall pre s,
         forallb (continues pm) pre = true ->
         continues pm s = false ->
         exists res, forall rest,
           claimPartition pm (pre ++ s :: rest) = Some res).
Proof.
  split.
  - induction script as [|s rest IH]; simpl; [reflexivity |].
    intros H. apply andb_prop in H as [Hs Hrest].
    destruct (claimPartition_keeps_going pm s Hs) as [e He].
    specialize (He rest). simpl in He. rewrite He, (IH Hrest). reflexivity.
  - intros pre s Hpre Hs. induction pre as [|s' pre IH]; simpl in *.
    + now apply claimPartition_decides.
    + apply andb_prop in Hpre as [Hs' Hpre].
      destruct (IH Hpre) as [[[r pm'] tr] Hres].
      destruct (claimPartition_keeps_going pm s' Hs') as [e He].
      eexists. intros rest. specialize (He (pre ++ s :: rest)).
      simpl in He. rewrite He, Hres. reflexivity.
Qed.

Lemma claimPartition_returns_at_first_decision_witness :
  exists res, forall rest,
    claimPartition pm_new
      ([step_owned_by "instance-2" WakeOther]
         ++ step_owned_by "instance-2" WakeDying :: rest) = Some res.
Proof.
  apply (proj2 (claimPartition_returns_at_first_decision pm_new)
           [step_owned_by "instance-2" WakeOther]
           (step_owned_by "instance-2" WakeDying)); reflexivity.
Defined.

(** ** The startup helpers *)

(** X5: [startPartitionOffsetManager] returns at the first attempt that
    succeeds or whose wait is interrupted, whatever would follow.  On success
    it returns the handle of that attempt and leaves the manager as it was;
    when interrupted it returns [tomb.ErrDying] right after reading the dying
    channel.  Each earlier attempt has cost one second. *)
Theorem startPartitionOffsetManager_first_return (pm : partitionManager)
    (pre : list om_step) (s : om_step) (rest : list om_step) :
  forallb om_retried pre = true ->
  om_returns s = true ->
  exists tr0,
    count (fun e => match e with ETimer _ => true | _ => false end) tr0
    = List.length pre
    /\ Forall (fun e => match e with
                        | ETimer d => d = 1 * Second
                        | EManagePartition (Some _) => True
                        | _ => False
                        end) tr0
    /\ startPartitionOffsetManager pm (pre ++ s :: rest)
       = match om_err s with
         | None =>
             Some ((Some (om_handle s), None), pm, tr0 ++ [EManagePartition None])
         | Some e =>
             Some ((None, Some ErrDying), observe_dying pm,
                   tr0 ++ [EManagePartition (Some e); EDying])
         end.
Proof.
  intros Hpre Hs. induction pre as [|s' pre IH]; simpl in Hpre.
  - exists []. split; [reflexivity |]. split; [constructor |].
    unfold om_returns in Hs. simpl.
    destruct (om_err s); [| reflexivity].
    destruct (om_wake s); [discriminate | reflexivity].
  - apply andb_prop in Hpre as [Hs' Hpre].
    destruct (IH Hpre) as [tr0 [Hc [Hf E]]].
    unfold om_retried, om_returns in Hs'.
    destruct (om_err s') as [e'|] eqn:Ee'; [| discriminate].
    destruct (om_wake s') eqn:Ew'; [| discriminate].
    exists (EManagePartition (Some e') :: ETimer (1 * Second) :: tr0).
    split; [| split].
    + rewrite !count_cons, Hc. reflexivity.
    + repeat (constructor; [simpl; auto |]). exact Hf.
    + cbn [app startPartitionOffsetManager]. rewrite Ee', Ew', E.
      now destruct (om_err s).
Qed.

Lemma startPartitionOffsetManager_first_return_witness :
  exists tr0,
    count (fun e => match e with ETimer _ => true | _ => false end) tr0 = 2%nat
    /\ Forall (fun e => match e with
                        | ETimer d => d = 1 * Second
                        | EManagePartition (Some _) => True
                        | _ => False
                        end) tr0
    /\ startPartitionOffsetManager pm_new om_script_third_time
       = Some ((Some 7%nat, None), pm_new, tr0 ++ [EManagePartition None]).
Proof.
  apply (startPartitionOffsetManager_first_return pm_new
           (firstn 2 om_script_third_time)
           {| om_handle := 7%nat; om_err := None; om_wake := WakeOther |} []);
    reflexivity.
Defined.

Lemma startPartitionConsumer_attempts_at (pm : partitionManager) (start : Z)
    (script : list pc_step) (r : option PartitionConsumer * option error)
    (pm' : partitionManager) (tr : trace) :
  startPartitionConsumer pm start script = Some (r, pm', tr) ->
  attempts_at start (Offsets_Initial (cm_config (parent pm))) tr = true.
Proof.
  revert start r pm' tr.
  induction script as [|s rest IH]; intros start r pm' tr H; [discriminate |].
  simpl in H. branches H; simpl; rewrite Z.eqb_refl; simpl;
    try reflexivity; eapply IH; eassumption.
Qed.

Lemma startPartitionConsumer_opened_at_initial (pm : partitionManager)
    (script : list pc_step) (r : option PartitionConsumer * option error)
    (pm' : partitionManager) (tr : trace) :
  let initial := Offsets_Initial (cm_config (parent pm)) in
  startPartitionConsumer pm initial script = Some (r, pm', tr) ->
  snd r = None ->
  pm' = pm /\ exists tr0, tr = tr0 ++ [EConsumePartition initial None].
Proof.
  intros initial. revert r pm' tr.
  induction script as [|s rest IH]; intros r pm' tr H; [discriminate |].
  simpl in H. fold initial in H.
  destruct (pc_err s) as [e|] eqn:Eerr.
  2:{ injection H as <- <- <-. intros _. split; [reflexivity |]. now exists []. }
  assert (Hrec : forall mid,
             match startPartitionConsumer pm initial rest with
             | Some (r0, pm'0, tr0) =>
                 Some (r0, pm'0, EConsumePartition initial (Some e) :: mid ++ tr0)
             | None => None
             end = Some (r, pm', tr) ->
             snd r = None ->
             pm' = pm /\ exists tr0, tr = tr0 ++ [EConsumePartition initial None]).
  { intros mid H' Hr.
    destruct (startPartitionConsumer pm initial rest)
      as [[[r1 pm1] tr1]|] eqn:E1; [| discriminate].
    injection H' as <- <- <-.
    destruct (IH _ _ _ eq_refl Hr) as [-> [tr0 ->]]. split; [reflexivity |].
    exists (EConsumePartition initial (Some e) :: mid ++ tr0).
    simpl. now rewrite <- app_assoc. }
  destruct e;
    try (destruct (pc_wake s);
         [ apply (Hrec [ETimer (1 * Second)]); exact H
         | injection H as <- <- <-; discriminate ]).
  apply (Hrec []). exact H.
Qed.

Lemma startPartitionConsumer_opened_at (pm : partitionManager) (start : Z)
    (script : list pc_step) (r : option PartitionConsumer * option error)
    (pm' : partitionManager) (tr : trace) :
  let initial := Offsets_Initial (cm_config (parent pm)) in
  startPartitionConsumer pm start script = Some (r, pm', tr) ->
  snd r = None ->
  pm' = pm
  /\ exists tr0,
       tr = tr0 ++ [EConsumePartition
                      (if (fallbacks tr =? 0)%nat then start else initial) None].
Proof.
  intros initial. revert start r pm' tr.
  induction script as [|s rest IH]; intros start r pm' tr H; [discriminate |].
  simpl in H. fold initial in H.
  destruct (pc_err s) as [e|] eqn:Eerr.
  2:{ injection H as <- <- <-. intros _. split; [reflexivity |]. now exists []. }
  assert (Hother :
            is_out_of_range (EConsumePartition start (Some e)) = false ->
            match pc_wake s with
            | WakeOther =>
                match startPartitionConsumer pm start rest with
                | Some (r0, pm'0, tr0) =>
                    Some (r0, pm'0,
                          EConsumePartition start (Some e)
                            :: ETimer (1 * Second) :: tr0)
                | None => None
                end
            | WakeDying =>
                Some (None, Some ErrDying, observe_dying pm,
                      [EConsumePartition start (Some e); EDying])
            end = Some (r, pm', tr) ->
            snd r = None ->
            pm' = pm
            /\ exists tr0,
                 tr = tr0 ++ [EConsumePartition
                                (if (fallbacks tr =? 0)%nat
                                 then start else initial) None]).
  { intros Hn H' Hr. destruct (pc_wake s).
    - destruct (startPartitionConsumer pm start rest)
        as [[[r1 pm1] tr1]|] eqn:E1; [| discriminate].
      injection H' as <- <- <-.
      destruct (IH _ _ _ _ E1 Hr) as [-> [tr0 Htr]]. split; [reflexivity |].
      exists (EConsumePartition start (Some e) :: ETimer (1 * Second) :: tr0).
      rewrite !fallbacks_cons, Hn. cbn [is_out_of_range Nat.add].
      rewrite Htr at 1. reflexivity.
    - injection H' as <- <- <-. discriminate Hr. }
  destruct e; try (apply Hother; [reflexivity | exact H]).
  destruct (startPartitionConsumer pm initial rest)
    as [[[r1 pm1] tr1]|] eqn:E1; [| discriminate].
  injection H as <- <- <-. intros Hr.
  destruct (startPartitionConsumer_opened_at_initial _ _ _ _ _ E1 Hr)
    as [-> [tr0 ->]].
  split; [reflexivity |].
  exists (EConsumePartition start (Some ErrOffsetOutOfRange) :: tr0).
  rewrite fallbacks_cons. reflexivity.
Qed.

(** X6: [startPartitionConsumer] asks for the starting offset it was given
    until an attempt is answered "offset out of range" and for the configured
    initial offset from then on; no other error changes the offset.  The
    consumer it returns was therefore opened at the starting offset when
    there was no fallback and at the initial offset otherwise, and the
    manager is as it was. *)
Theorem startPartitionConsumer_offsets (pm : partitionManager) (start : Z)
    (script : list pc_step) (r : option PartitionConsumer * option error)
    (pm' : partitionManager) (tr : trace) :
  let initial := Offsets_Initial (cm_config (parent pm)) in
  startPartitionConsumer pm start script = Some (r, pm', tr) ->
  attempts_at start initial tr = true
  /\ (snd r = None ->
      pm' = pm
      /\ exists tr0,
           tr = tr0 ++ [EConsumePartition
                          (if (fallbacks tr =? 0)%nat then start else initial)
                          None]).
Proof.
  intros initial H. split.
  - eapply startPartitionConsumer_attempts_at; eassumption.
  - eapply startPartitionConsumer_opened_at; eassumption.
Qed.

Lemma startPartitionConsumer_offsets_witness :
  exists pm' tr,
    startPartitionConsumer pm_new 42 pc_script_expired
    = Some ((Some 9%nat, None), pm', tr)
    /\ attempts_at 42 OffsetNewest tr = true
    /\ (@None error = None ->
        pm' = pm_new
        /\ exists tr0,
             tr = tr0 ++ [EConsumePartition
                            (if (fallbacks tr =? 0)%nat then 42 else OffsetNewest)
                            None]).
Proof.
  do 2 eexists. split; [reflexivity |].
  eapply (startPartitionConsumer_offsets pm_new 42 pc_script_expired
            (Some 9%nat, None)).
  reflexivity.
Defined.

(** ** The dispatch loop *)

Lemma at_most_one_more_cons {A : Type} (x : A) (a b : list A) :
  at_most_one_more a b -> at_most_one_more (x :: a) (x :: b).
Proof.
  intros [-> | [y ->]]; [now left | right]. now exists y.
Qed.

(** X7: the dispatch loop forwards what it receives, in the order in which the
    consumer delivers it: the messages it received are the first messages of
    the consumer, the messages it forwarded are the messages it received but
    possibly the last one (received when the manager was interrupted), and
    likewise for the errors. *)
Theorem dispatch_forwards_in_order (pm : partitionManager)
    (script : list loop_step) (pm' : partitionManager) (tr : trace) :
  dispatch pm script = Some (pm', tr) ->
  (exists later, delivered script = received tr ++ later)
  /\ at_most_one_more (forwarded tr) (received tr)
  /\ (exists later, raised script = errors_received tr ++ later)
  /\ at_most_one_more (errors_forwarded tr) (errors_received tr).
Proof.
  revert pm pm' tr. induction script as [|s rest IH]; intros pm pm' tr H;
    [discriminate |].
  simpl in H.
  destruct s as [|m [|]|x [|]|x [|]];
    try (injection H as <- <-;
         repeat split;
         first [ now eexists | now left | right; now eexists ]);
    match type of H with
    | context [dispatch ?p rest] =>
        destruct (dispatch p rest) as [[pm1 tr1]|] eqn:E1; [| discriminate];
        injection H as <- <-;
        destruct (IH _ _ _ E1) as [[l1 H1] [H2 [[l3 H3] H4]]]
    end.
  - repeat split.
    + exists l1. change (delivered (LoopMessage m Forwarded :: rest))
        with (m :: delivered rest). rewrite H1. reflexivity.
    + now apply (at_most_one_more_cons m).
    + exists l3. exact H3.
    + exact H4.
  - repeat split.
    + exists l1. exact H1.
    + exact H2.
    + exists l3. change (raised (LoopOffsetManagerError x Forwarded :: rest))
        with (x :: raised rest). rewrite H3. reflexivity.
    + now apply (at_most_one_more_cons x).
  - repeat split.
    + exists l1. exact H1.
    + exact H2.
    + exists l3. change (raised (LoopConsumerError x Forwarded :: rest))
        with (x :: raised rest). rewrite H3. reflexivity.
    + now apply (at_most_one_more_cons x).
Qed.

Lemma dispatch_forwards_in_order_witness :
  exists pm' tr,
    dispatch pm_new loop_script_cut = Some (pm', tr)
    /\ (exists later, delivered loop_script_cut = received tr ++ later)
    /\ at_most_one_more (forwarded tr) (received tr)
    /\ (exists later, raised loop_script_cut = errors_received tr ++ later)
    /\ at_most_one_more (errors_forwarded tr) (errors_received tr).
Proof.
  do 2 eexists. split; [reflexivity |].
  eapply (dispatch_forwards_in_order pm_new loop_script_cut). reflexivity.
Defined.

Lemma observe_dying_not_alive (pm : partitionManager) :
  Tomb.is_alive (t (observe_dying pm)) = false.
Proof.
  unfold observe_dying, interrupt, Tomb.Kill. simpl.
  destruct (Tomb.is_alive (t pm)) eqn:E; [reflexivity | exact E].
Qed.

Lemma dispatch_ends_dying (pm : partitionManager) (script : list loop_step)
    (pm' : partitionManager) (tr : trace) :
  dispatch pm script = Some (pm', tr) ->
  Tomb.is_alive (t pm') = false /\ exists tr0, tr = tr0 ++ [EDying].
Proof.
  revert pm pm' tr. induction script as [|s rest IH]; intros pm pm' tr H;
    [discriminate |].
  simpl in H.
  destruct s as [|m [|]|x [|]|x [|]];
    try (injection H as <- <-; split;
         [apply observe_dying_not_alive
         | first [now exists [] | now eexists [_]]]);
    match type of H with
    | context [dispatch ?p rest] =>
        destruct (dispatch p rest) as [[pm1 tr1]|] eqn:E1; [| discriminate];
        injection H as <- <-;
        destruct (IH _ _ _ E1) as [Ha [tr0 ->]]
    end;
    (split; [exact Ha |]).
  - now exists (EMessage m :: EForwardMessage m
                  :: EStoreLastConsumed (msg_Offset m) :: tr0).
  - now exists (EError x :: EForwardError x :: tr0).
  - now exists (EError x :: EForwardError x :: tr0).
Qed.

Lemma dispatch_interrupted (pm : partitionManager) (s : loop_step) :
  interrupts s = true ->
  exists res, forall rest, dispatch pm (s :: rest) = Some res.
Proof.
  destruct s as [|m [|]|x [|]|x [|]]; simpl; try discriminate; eauto.
Qed.

(** X8: the dispatch loop returns only when it reads the dying channel, in its
    outer [select] or while a forward is blocked.  It goes on as long as
    everything is forwarded, returns at the first iteration that is
    interrupted, whatever would follow, and the manager it leaves is dying. *)
Theorem dispatch_returns_when_dying :
  (forall pm script,
      existsb interrupts script = false -> dispatch pm script = None)
  /\ (forall pm pre s,
         existsb interrupts pre = false ->
         interrupts s = true ->
         exists res, forall rest, dispatch pm (pre ++ s :: rest) = Some res)
  /\ (forall pm script pm' tr,
         dispatch pm script = Some (pm', tr) ->
         Tomb.is_alive (t pm') = false /\ exists tr0, tr = tr0 ++ [EDying]).
Proof.
  split; [| split].
  - intros pm script. revert pm.
    induction script as [|s rest IH]; intros pm H; [reflexivity |].
    simpl in H. apply orb_false_elim in H as [Hs Hrest].
    destruct s as [|m [|]|x [|]|x [|]]; try discriminate; simpl;
      now rewrite (IH _ Hrest).
  - intros pm pre. revert pm.
    induction pre as [|s' pre IH]; intros pm s Hpre Hs.
    + now apply dispatch_interrupted.
    + simpl in Hpre. apply orb_false_elim in Hpre as [Hs' Hpre].
      destruct s' as [|m [|]|x [|]|x [|]]; try discriminate; simpl;
        match goal with
        | |- context [dispatch ?p (pre ++ s :: _)] =>
            destruct (IH p s Hpre Hs) as [[pm1 tr1] Hres]
        end;
        eexists; intros rest; rewrite Hres; reflexivity.
  - intros pm script pm' tr H. eapply dispatch_ends_dying; eassumption.
Qed.

Lemma dispatch_returns_when_dying_witness :
  exists res, forall rest,
    dispatch pm_new ([step_message 10; step_message 11]
                       ++ LoopMessage {| msg_Offset := 12 |} ForwardDying :: rest)
    = Some res.
Proof.
  apply (proj1 (proj2 dispatch_returns_when_dying) pm_new
           [step_message 10; step_message 11]
           (LoopMessage {| msg_Offset := 12 |} ForwardDying)); reflexivity.
Defined.

(** ** run *)
























(** ** Acknowledgements *)

Lemma ack_cases (pm : partitionManager) (store : offset_store) (o : Z)
    (h : PartitionOffsetManager) :
  offsetManager pm = Some h ->
  ack o (pm, store)
  = if signals pm o
    then match processingDone pm with
         | ChanOpen =>
             Returned (set_processingDone ChanClosed pm, store ++ [(h, o)])
         | ChanClosed => Panicked CloseOfClosedChannel (pm, store ++ [(h, o)])
         end
    else Returned (pm, store ++ [(h, o)]).
Proof.
  intros Hh. unfold ack, signals. rewrite Hh.
  destruct (negb _ && _); [| reflexivity].
  now destruct (processingDone pm).
Qed.

(** X11: what a sequence of [ack] calls does to a manager with a bound offset
    manager, the dispatch loop standing still.  It returns when at most one
    close of [processingDone] is due (the channel being closed already counts
    as one): every offset is persisted, in order, and the channel is closed
    when an acknowledgement signalled.  Otherwise the acknowledgement that
    finds the channel closed panics, after persisting its own offset, and the
    later ones are lost. *)
Theorem acks_outcome (offsets : list Z) (pm : partitionManager)
    (store : offset_store) (h : PartitionOffsetManager) :
  offsetManager pm = Some h ->
  match acks offsets (pm, store) with
  | Returned (pm', store') =>
      (closes pm offsets <= 1)%nat
      /\ store' = store ++ map (pair h) offsets
      /\ pm' = (if (signal_count pm offsets =? 0)%nat then pm
                else set_processingDone ChanClosed pm)
  | Panicked p (pm', store') =>
      (2 <= closes pm offsets)%nat
      /\ p = CloseOfClosedChannel
      /\ exists j,
           (1 <= j <= List.length offsets)%nat
           /\ store' = store ++ map (pair h) (firstn j offsets)
  end.
Proof.
  revert pm store. induction offsets as [|o rest IH]; intros pm store Hh.
  - simpl. unfold closes, signal_count. simpl.
    rewrite app_nil_r. destruct (processingDone pm); repeat split; lia.
  - cbn [acks]. rewrite (ack_cases pm store o h Hh).
    unfold closes, signal_count. cbn [filter].
    destruct (signals pm o) eqn:Es.
    + destruct (processingDone pm) eqn:Ec.
      * specialize (IH (set_processingDone ChanClosed pm) (store ++ [(h, o)]) Hh).
        unfold closes, signal_count in IH.
        cbn [processingDone set_processingDone] in IH.
        change (filter (signals (set_processingDone ChanClosed pm)) rest)
          with (filter (signals pm) rest) in IH.
        unfold offset_store in *. revert IH.
        destruct (acks rest (set_processingDone ChanClosed pm, store ++ [(h, o)]))
          as [[pm' store'] | p [pm' store']]; intros IH.
        -- destruct IH as [Hn [-> ->]]. cbn [List.length]. split; [lia |].
           split; [now rewrite <- app_assoc |].
           simpl. now destruct (List.length (filter (signals pm) rest) =? 0)%nat.
        -- destruct IH as [Hn [-> [j [Hj ->]]]]. cbn [List.length].
           split; [lia |]. split; [reflexivity |].
           exists (S j). split; [simpl in *; lia |].
           simpl. now rewrite <- app_assoc.
      * cbn [List.length]. split; [lia |]. split; [reflexivity |].
        exists 1%nat. split; [simpl; lia | reflexivity].
    + specialize (IH pm (store ++ [(h, o)]) Hh).
      unfold closes, signal_count in IH.
      unfold offset_store in *. revert IH.
      destruct (acks rest (pm, store ++ [(h, o)]))
        as [[pm' store'] | p [pm' store']]; intros IH.
      * destruct IH as [Hn [-> ->]]. split; [exact Hn |].
        split; [now rewrite <- app_assoc | reflexivity].
      * destruct IH as [Hn [-> [j [Hj ->]]]].
        split; [exact Hn |]. split; [reflexivity |].
        exists (S j). split; [simpl in *; lia |].
        simpl. now rewrite <- app_assoc.
Qed.

Lemma acks_outcome_witness :
  (closes pm_draining_12 [10; 11; 12]%Z <= 1)%nat
  /\ [(7%nat, 10); (7%nat, 11); (7%nat, 12)]
     = [] ++ map (pair 7%nat) [10; 11; 12]
  /\ set_processingDone ChanClosed pm_draining_12
     = (if (signal_count pm_draining_12 [10; 11; 12]%Z =? 0)%nat
        then pm_draining_12
        else set_processingDone ChanClosed pm_draining_12).
Proof.
  exact (acks_outcome [10; 11; 12] pm_draining_12 [] 7%nat eq_refl).
Defined.

Lemma interrupt_not_alive (pm : partitionManager) :
  Tomb.is_alive (t (interrupt pm)) = false.
Proof. apply observe_dying_not_alive. Qed.

(** X12: [interrupt] decides what an acknowledgement of the last consumed
    offset does.  Before it, an [ack] only persists its offset, whatever the
    offset; after it, the [ack] of the last consumed offset also closes
    [processingDone], and the [ack] of any other offset still only persists.
    A second [interrupt] changes nothing. *)
Theorem ack_signals_after_interrupt (pm : partitionManager)
    (store : offset_store) (o : Z) (h : PartitionOffsetManager) :
  offsetManager pm = Some h ->
  processingDone pm = ChanOpen ->
  Tomb.is_alive (t pm) = true ->
  ack o (pm, store) = Returned (pm, store ++ [(h, o)])
  /\ ack (lastConsumedOffset pm) (interrupt pm, store)
     = Returned (set_processingDone ChanClosed (interrupt pm),
                 store ++ [(h, lastConsumedOffset pm)])
  /\ (o <> lastConsumedOffset pm ->
      ack o (interrupt pm, store) = Returned (interrupt pm, store ++ [(h, o)]))
  /\ interrupt (interrupt pm) = interrupt pm.
Proof.
  intros Hh Hc Ha. repeat split.
  - rewrite (ack_cases pm store o h Hh). unfold signals. now rewrite Ha.
  - rewrite (ack_cases (interrupt pm) store _ h Hh). unfold signals.
    rewrite interrupt_not_alive, Z.eqb_refl.
    change (processingDone (interrupt pm)) with (processingDone pm).
    now rewrite Hc.
  - intros Hne. rewrite (ack_cases (interrupt pm) store o h Hh). unfold signals.
    change (lastConsumedOffset (interrupt pm)) with (lastConsumedOffset pm).
    apply Z.eqb_neq in Hne. now rewrite Hne, andb_false_r.
  - unfold interrupt at 1. unfold Tomb.Kill.
    rewrite interrupt_not_alive. simpl. reflexivity.
Qed.

Lemma ack_signals_after_interrupt_witness :
  ack 11 (pm_consuming_12, []) = Returned (pm_consuming_12, [] ++ [(7%nat, 11)])
  /\ ack (lastConsumedOffset pm_consuming_12) (interrupt pm_consuming_12, [])
     = Returned (set_processingDone ChanClosed (interrupt pm_consuming_12),
                 [] ++ [(7%nat, lastConsumedOffset pm_consuming_12)])
  /\ (11 <> lastConsumedOffset pm_consuming_12 ->
      ack 11 (interrupt pm_consuming_12, [])
      = Returned (interrupt pm_consuming_12, [] ++ [(7%nat, 11)]))
  /\ interrupt (interrupt pm_consuming_12) = interrupt pm_consuming_12.
Proof.
  apply (ack_signals_after_interrupt pm_consuming_12 [] 11 7%nat); reflexivity.
Defined.

(** X13: an acknowledgement of the last consumed offset that arrives during
    the shutdown ends the wait for processing at once: [waitForProcessing]
    finds [processingDone] closed and does not use its timeout, provided the
    timeout is positive. *)
Theorem ack_then_waitForProcessing (pm : partitionManager)
    (store : offset_store) (d : drain_step) (h : PartitionOffsetManager) :
  offsetManager pm = Some h ->
  processingDone pm = ChanOpen ->
  Tomb.is_alive (t pm) = false ->
  ds_processed d < lastConsumedOffset pm ->
  0 <= lastConsumedOffset pm ->
  0 < MaxProcessingTime (cm_config (parent pm)) ->
  exists pm1 store1,
    ack (lastConsumedOffset pm) (pm, store) = Returned (pm1, store1)
    /\ waitForProcessing pm1 d
       = Returned [EDrainOffsets (ds_processed d) (lastConsumedOffset pm);
                   EDrainSignalled 0].
Proof.
  intros Hh Hc Ha HP HC HT.
  exists (set_processingDone ChanClosed pm), (store ++ [(h, lastConsumedOffset pm)]).
  split.
  - rewrite (ack_cases pm store _ h Hh). unfold signals.
    now rewrite Ha, Z.eqb_refl, Hc.
  - unfold waitForProcessing. cbn [offsetManager set_processingDone
                                     lastConsumedOffset processingDone parent].
    rewrite Hh.
    assert (E1 : (lastConsumedOffset pm >=? 0) = true) by (apply Z.geb_le; lia).
    assert (E2 : (lastConsumedOffset pm >? ds_processed d) = true)
      by (apply Z.gtb_lt; lia).
    rewrite E1, E2. unfold select_done_or_timeout.
    rewrite (Z.max_r 0 (MaxProcessingTime _)) by lia.
    change (Z.max 0 0) with 0.
    assert (E3 : (0 <? MaxProcessingTime (cm_config (parent pm))) = true)
      by (apply Z.ltb_lt; lia).
    now rewrite E3.
Qed.

Lemma ack_then_waitForProcessing_witness :
  exists pm1 store1,
    ack (lastConsumedOffset pm_draining_12) (pm_draining_12, [])
    = Returned (pm1, store1)
    /\ waitForProcessing pm1 drain_never_acked
       = Returned [EDrainOffsets (ds_processed drain_never_acked)
                     (lastConsumedOffset pm_draining_12);
                   EDrainSignalled 0].
Proof.
  apply (ack_then_waitForProcessing pm_draining_12 [] drain_never_acked 7%nat);
    try reflexivity; simpl; unfold Second; lia.
Defined.

(** ** The starting offset *)

Lemma wrap64_range (z : Z) : is_int64 (wrap64 z).
Proof.
  unfold is_int64, int64_min, int64_max, wrap64.
  pose proof (Z.mod_pos_bound (z + 2 ^ 63) (2 ^ 64) ltac:(lia)). lia.
Qed.

(** X14: the offset at which [run] starts the consumer is an [int64] whenever
    the configured initial offset is one.  It lies right after the committed
    offset, except for the largest [int64], where the addition wraps around to
    the smallest. *)
Theorem initialOffset_range (cfg : config) (k : Z) :
  is_int64 (Offsets_Initial cfg) ->
  is_int64 k ->
  is_int64 (initialOffset cfg k)
  /\ (0 <= k < int64_max -> initialOffset cfg k = k + 1)
  /\ (k = int64_max -> initialOffset cfg k = int64_min).
Proof.
  intros Hi Hk. unfold initialOffset. split; [| split].
  - destruct (k <? 0); [exact Hi | apply wrap64_range].
  - intros [H0 H1]. apply Z.ltb_ge in H0. rewrite H0.
    apply add64_exact. unfold is_int64, int64_min, int64_max in *.
    apply Z.ltb_ge in H0. lia.
  - intros ->. reflexivity.
Qed.

Lemma initialOffset_range_witness :
  is_int64 (initialOffset (cm_config cm_newest) int64_max)
  /\ (0 <= int64_max < int64_max ->
      initialOffset (cm_config cm_newest) int64_max = int64_max + 1)
  /\ (int64_max = int64_max ->
      initialOffset (cm_config cm_newest) int64_max = int64_min).
Proof.
  apply (initialOffset_range (cm_config cm_newest) int64_max);
    unfold is_int64; split; apply Z.leb_le; reflexivity.
Defined.

(** * The example consumer *)

Lemma lookup_offset_handle (st : example_state) (m : TopicMessage)
    (topic : string) (partition : Z) :
  lookup_offset (offsets (handle_message st m)) topic partition
  = if same_partition topic partition m then tm_Offset m
    else lookup_offset (offsets st) topic partition.
Proof.
  unfold lookup_offset, same_partition, handle_message. cbn [offsets].
  destruct (String.eqb topic (tm_Topic m)) eqn:Et; [| reflexivity].
  apply String.eqb_eq in Et. subst topic. cbn [andb].
  destruct (partition =? tm_Partition m); [reflexivity |].
  now destruct (offsets st (tm_Topic m)).
Qed.






Lemma sub64_exact (a b : Z) : is_int64 (a - b) -> sub64 a b = a - b.
Proof.
  unfold is_int64, int64_min, int64_max, sub64, wrap64. intros H.
  rewrite Z.mod_small; lia.
Qed.

(** What [handle_message] logs, in terms of the offset recorded last. *)
Lemma logged_handle (st : example_state) (m : TopicMessage) :
  let last := lookup_offset (offsets st) (tm_Topic m) (tm_Partition m) in
  logged (handle_message st m)
  = if negb (last =? 0) && negb (last =? sub64 (tm_Offset m) 1)
    then logged st
           ++ [Unexpected (tm_Topic m) (tm_Partition m) (add64 last 1)
                 (tm_Offset m) (add64 (sub64 (tm_Offset m) last) 1)]
    else logged st.
Proof.
  unfold lookup_offset, handle_message. cbn [logged].
  now destruct (offsets st (tm_Topic m)).
Qed.

Lemma same_partition_refl (m : TopicMessage) :
  same_partition (tm_Topic m) (tm_Partition m) m = true.
Proof. unfold same_partition. now rewrite String.eqb_refl, Z.eqb_refl. Qed.







(** X17: the example compares the offset of a message with the offset of the
    message before it in the same topic and partition.  After a message with
    a positive offset, a message whose offset is not the next one is logged as
    unexpected, with the next offset as the expected one and the difference of
    the two offsets plus one as "diff".  After a message with offset zero
    nothing is logged, whatever the offset: zero stands for "no message
    yet". *)
Theorem example_detects_gaps_but_after_zero (st : example_state)
    (m0 m1 : TopicMessage) :
  tm_Topic m1 = tm_Topic m0 ->
  tm_Partition m1 = tm_Partition m0 ->
  valid_offset m0 ->
  valid_offset m1 ->
  let st1 := handle_message st m0 in
  (tm_Offset m0 = 0 -> logged (handle_message st1 m1) = logged st1)
  /\ (tm_Offset m1 = tm_Offset m0 + 1 ->
      logged (handle_message st1 m1) = logged st1)
  /\ (tm_Offset m0 <> 0 -> tm_Offset m1 <> tm_Offset m0 + 1 ->
      logged (handle_message st1 m1)
      = logged st1
          ++ [Unexpected (tm_Topic m0) (tm_Partition m0) (tm_Offset m0 + 1)
                (tm_Offset m1) (tm_Offset m1 - tm_Offset m0 + 1)]).
Proof.
  intros Ht Hp H0 H1 st1.
  assert (Hlast : lookup_offset (offsets st1) (tm_Topic m1) (tm_Partition m1)
                  = tm_Offset m0).
  { unfold st1. rewrite lookup_offset_handle, Ht, Hp.
    now rewrite same_partition_refl. }
  assert (Hsub : sub64 (tm_Offset m1) 1 = tm_Offset m1 - 1).
  { apply sub64_exact.
    unfold valid_offset, is_int64, int64_min, int64_max in *. lia. }
  pose proof (logged_handle st1 m1) as L. cbv zeta in L.
  rewrite Hlast, Hsub in L. rewrite L. clear L.
  split; [| split].
  - intros ->. reflexivity.
  - intros ->. replace (tm_Offset m0 + 1 - 1) with (tm_Offset m0) by lia.
    now rewrite Z.eqb_refl, andb_false_r.
  - intros Hnz Hgap.
    assert (E1 : (tm_Offset m0 =? 0) = false) by now apply Z.eqb_neq.
    assert (E2 : (tm_Offset m0 =? tm_Offset m1 - 1) = false)
      by (apply Z.eqb_neq; lia).
    rewrite E1, E2. cbn [negb andb]. rewrite Ht, Hp.
    rewrite (add64_exact (tm_Offset m0) 1),
      (sub64_exact (tm_Offset m1) (tm_Offset m0)), add64_exact;
      try reflexivity;
      unfold valid_offset, is_int64, int64_min, int64_max in *; lia.
Qed.

Lemma example_detects_gaps_but_after_zero_witness :
  let m0 := {| tm_Topic := "test_topic"; tm_Partition := 0; tm_Offset := 0 |} in
  let m1 := {| tm_Topic := "test_topic"; tm_Partition := 0; tm_Offset := 5 |} in
  let st1 := handle_message example_start m0 in
  (tm_Offset m0 = 0 -> logged (handle_message st1 m1) = logged st1)
  /\ (tm_Offset m1 = tm_Offset m0 + 1 ->
      logged (handle_message st1 m1) = logged st1)
  /\ (tm_Offset m0 <> 0 -> tm_Offset m1 <> tm_Offset m0 + 1 ->
      logged (handle_message st1 m1)
      = logged st1
          ++ [Unexpected (tm_Topic m0) (tm_Partition m0) (tm_Offset m0 + 1)
                (tm_Offset m1) (tm_Offset m1 - tm_Offset m0 + 1)]).
Proof.
  apply (example_detects_gaps_but_after_zero example_start
           {| tm_Topic := "test_topic"; tm_Partition := 0; tm_Offset := 0 |}
           {| tm_Topic := "test_topic"; tm_Partition := 0; tm_Offset := 5 |});
    try reflexivity; unfold valid_offset, int64_max; simpl; lia.
Defined.

(** ** Cleanup errors *)

Lemma map_cleanup_ranked (c r : option error) (k : nat) (tr : trace) :
  k <> 4%nat -> k <> 7%nat -> Forall (ranked k) tr ->
  map (with_cleanup_results c r) tr = tr.
Proof.
  intros H4 H7. induction 1 as [|e tr He _ IH]; [reflexivity |].
  simpl. rewrite IH. f_equal.
  destruct He as [He | He]; destruct e; simpl in *; try reflexivity;
    try discriminate; exfalso; injection He as He; lia.
Qed.

Lemma drain_trace_cleanup (c r : option error) (pm : partitionManager)
    (rs : run_script) :
  drain_trace pm (with_cleanup_errors c r rs)
  = map (with_cleanup_results c r) (drain_trace pm rs).
Proof.
  rewrite (map_cleanup_ranked c r 5); [reflexivity | lia | lia |].
  apply drain_trace_ranked.
Qed.

(** Rewrites the trace of a path into the trace of the same path with other
    results of the cleanup calls. *)
Ltac cleanup_blocks c r :=
  repeat rewrite map_app;
  repeat match goal with
         | E : Forall (ranked ?k) ?tr |- context [map _ ?tr] =>
             rewrite (map_cleanup_ranked c r k tr) by (lia || exact E)
         end.

(** X18: what [pc.Close()] and [ReleasePartition] return makes no difference
    to [run]: [closePartitionConsumer] and [releasePartition] only log a
    failure.  With other results of these two calls [run] takes the same
    steps and leaves the same manager. *)
Theorem run_ignores_cleanup_errors (pm : partitionManager) (rs : run_script)
    (pm' : partitionManager) (tr : trace) (c r : option error) :
  run pm rs = Some (pm', tr) ->
  run pm (with_cleanup_errors c r rs)
  = Some (pm', map (with_cleanup_results c r) tr).
Proof.
  intros H. apply run_inv in H.
  destruct H as [err pm1 tr1 E1
                | pm1 tr1 pm2 tr2 E1 E2
                | pm1 tr1 h pm2 tr2 pm4 tr4 E1 E2 E4
                | pm1 tr1 h pm2 tr2 pc pm4 tr4 pm5 tr5 E1 E2 E4 E5];
    unfold run, run_body;
    cbn [with_cleanup_errors rs_claim rs_offsetManager rs_committed
           rs_consumer rs_loop];
    rewrite E1; try rewrite E2; cbv zeta;
    try change (parent (set_offsetManager h pm2)) with (parent pm2);
    try rewrite E4; try rewrite E5;
    apply claimPartition_ranked in E1;
    try apply startPartitionOffsetManager_ranked in E2;
    try apply startPartitionConsumer_ranked in E4;
    try apply dispatch_ranked in E5;
    f_equal; f_equal;
    unfold run_deferred; cbn [flat_map].
  - cbn [run_deferred_call]. cleanup_blocks c r.
    repeat (rewrite <- ?app_assoc, ?app_nil_r; cbn [app map with_cleanup_results]).
    reflexivity.
  - cbn [run_deferred_call with_cleanup_errors rs_release].
    cleanup_blocks c r.
    repeat (rewrite <- ?app_assoc, ?app_nil_r; cbn [app map with_cleanup_results]).
    reflexivity.
  - change (run_deferred_call (kill (Some ErrDying) pm4)
              (with_cleanup_errors c r rs) DWaitForProcessing)
      with (drain_trace (kill (Some ErrDying) pm4) (with_cleanup_errors c r rs)).
    rewrite drain_trace_cleanup.
    cbn [run_deferred_call with_cleanup_errors rs_release].
    cleanup_blocks c r.
    repeat (rewrite <- ?app_assoc, ?app_nil_r; cbn [app map with_cleanup_results]).
    reflexivity.
  - change (run_deferred_call pm5 (with_cleanup_errors c r rs) DWaitForProcessing)
      with (drain_trace pm5 (with_cleanup_errors c r rs)).
    rewrite drain_trace_cleanup.
    cbn [run_deferred_call with_cleanup_errors rs_release rs_close_consumer].
    cleanup_blocks c r.
    repeat (rewrite <- ?app_assoc, ?app_nil_r; cbn [app map with_cleanup_results]).
    reflexivity.
Qed.

Lemma run_ignores_cleanup_errors_witness :
  exists pm' tr,
    run pm_new rs_consumed = Some (pm', tr)
    /\ run pm_new (with_cleanup_errors (Some (ErrOther 1)) (Some (ErrOther 2))
                     rs_consumed)
       = Some (pm', map (with_cleanup_results (Some (ErrOther 1))
                           (Some (ErrOther 2))) tr).
Proof.
  do 2 eexists. split; [reflexivity |].
  eapply (run_ignores_cleanup_errors pm_new rs_consumed). reflexivity.
Defined.

(** ** What run holds when it takes a step *)

Lemma permits_more (c b o x y z : bool) (k : nat) :
  permits c b o k = true -> permits (c || x) (b || y) (o || z) k = true.
Proof.
  unfold permits.
  destruct (needs_claim k), (needs_offsetManager k), (needs_consumer k),
    c, b, o; simpl; auto; discriminate.
Qed.

Lemma guarded_block (k : nat) (a rest : trace) (c b o : bool) :
  Forall (ranked k) a ->
  permits c b o k = true ->
  guarded (c || existsb is_successful_claim a) (b || existsb is_bind a)
    (o || existsb is_opened a) rest = true ->
  guarded c b o (a ++ rest) = true.
Proof.
  intros Ha. revert c b o. induction Ha as [|e a He _ IH]; intros c b o Hp Hrest.
  - simpl in Hrest. now rewrite !orb_false_r in Hrest.
  - cbn [app guarded]. apply andb_true_intro. split.
    + unfold allowed. destruct He as [-> | ->]; [reflexivity | exact Hp].
    + apply IH; [now apply permits_more |].
      simpl in Hrest. now rewrite <- !orb_assoc.
Qed.

Lemma guarded_prefix (pre : trace) (e : event) (post : trace) (k : nat)
    (c b o : bool) :
  guarded c b o (pre ++ e :: post) = true ->
  rank e = Some k ->
  permits (c || existsb is_successful_claim pre) (b || existsb is_bind pre)
    (o || existsb is_opened pre) k = true.
Proof.
  revert c b o. induction pre as [|x pre IH]; intros c b o H He.
  - simpl in H. apply andb_prop in H as [H _]. unfold allowed in H.
    rewrite He in H. simpl. now rewrite !orb_false_r.
  - cbn [app guarded] in H. apply andb_prop in H as [_ H].
    specialize (IH _ _ _ H He). simpl. now rewrite !orb_assoc.
Qed.

Lemma claimPartition_claimed (pm : partitionManager) (script : list claim_step)
    (pm' : partitionManager) (tr : trace) :
  claimPartition pm script = Some (None, pm', tr) ->
  existsb is_successful_claim tr = true.
Proof.
  revert pm' tr. induction script as [|s rest IH]; intros pm' tr H;
    [discriminate |].
  simpl in H.
  assert (Hrec : forall a b,
             match claimPartition pm rest with
             | Some (r, pm'0, tr0) => Some (r, pm'0, a :: b :: tr0)
             | None => None
             end = Some (None, pm', tr) ->
             existsb is_successful_claim tr = true).
  { intros a b H'.
    destruct (claimPartition pm rest) as [[[r1 pm1] tr1]|]; [| discriminate].
    injection H' as -> <- <-. simpl. rewrite (IH pm1 tr1 eq_refl).
    now rewrite !orb_true_r. }
  destruct (cs_err s).
  { destruct (cs_wake s); [eapply Hrec; exact H | discriminate]. }
  destruct (cs_owner s) as [owner|].
  - destruct (String.eqb owner _); [discriminate |].
    destruct (cs_wake s); [eapply Hrec; exact H | discriminate].
  - destruct (cs_claim s); [eapply Hrec; exact H |].
    injection H as <- <-. reflexivity.
Qed.

Lemma startPartitionConsumer_opened (pm : partitionManager) (start : Z)
    (script : list pc_step) (pc : option PartitionConsumer)
    (pm' : partitionManager) (tr : trace) :
  startPartitionConsumer pm start script = Some ((pc, None), pm', tr) ->
  existsb is_opened tr = true.
Proof.
  revert start pm' tr. induction script as [|s rest IH]; intros start pm' tr H;
    [discriminate |].
  simpl in H.
  assert (Hrec : forall o mid,
             match startPartitionConsumer pm o rest with
             | Some (r, pm'0, tr0) => Some (r, pm'0, mid ++ tr0)
             | None => None
             end = Some (pc, None, pm', tr) ->
             existsb is_opened tr = true).
  { intros o mid H'.
    destruct (startPartitionConsumer pm o rest) as [[[r1 pm1] tr1]|] eqn:E1;
      [| discriminate].
    injection H' as -> <- <-. rewrite existsb_app, (IH _ _ _ E1).
    apply orb_true_r. }
  destruct (pc_err s) as [e|]; [| injection H as <- <- <-; reflexivity].
  destruct e;
    try (destruct (pc_wake s);
         [ eapply (Hrec start [_; _]); exact H | discriminate ]).
  eapply (Hrec (Offsets_Initial (cm_config (parent pm))) [_]). exact H.
Qed.

Lemma run_guarded (pm : partitionManager) (rs : run_script)
    (pm' : partitionManager) (tr : trace) :
  run pm rs = Some (pm', tr) -> guarded false false false tr = true.
Proof.
  intros H. apply run_inv in H.
  destruct H as [err pm1 tr1 E1
                | pm1 tr1 pm2 tr2 E1 E2
                | pm1 tr1 h pm2 tr2 pm4 tr4 E1 E2 E4
                | pm1 tr1 h pm2 tr2 pc pm4 tr4 pm5 tr5 E1 E2 E4 E5].
  - apply (guarded_block 0); [eapply claimPartition_ranked; eassumption
                             | reflexivity | reflexivity].
  - pose proof (claimPartition_claimed _ _ _ _ E1) as C1.
    apply (guarded_block 0); [eapply claimPartition_ranked; eassumption
                             | reflexivity |].
    rewrite C1. cbn [orb].
    apply (guarded_block 1); [eapply startPartitionOffsetManager_ranked;
                              eassumption | reflexivity | reflexivity].
  - pose proof (claimPartition_claimed _ _ _ _ E1) as C1.
    apply (guarded_block 0); [eapply claimPartition_ranked; eassumption
                             | reflexivity |].
    rewrite C1. cbn [orb].
    apply (guarded_block 1); [eapply startPartitionOffsetManager_ranked;
                              eassumption | reflexivity |].
    cbn [orb app guarded allowed rank permits needs_claim needs_offsetManager
           needs_consumer Nat.leb andb implb is_bind is_successful_claim
           is_opened].
    rewrite !orb_true_r. cbn [orb].
    apply (guarded_block 2); [eapply startPartitionConsumer_ranked; eassumption
                             | reflexivity |].
    cbn [orb app guarded allowed rank]. cbn [andb].
    apply (guarded_block 5); [apply drain_trace_ranked | reflexivity |].
    reflexivity.
  - pose proof (claimPartition_claimed _ _ _ _ E1) as C1.
    pose proof (startPartitionConsumer_opened _ _ _ _ _ _ E4) as C4.
    apply (guarded_block 0); [eapply claimPartition_ranked; eassumption
                             | reflexivity |].
    rewrite C1. cbn [orb].
    apply (guarded_block 1); [eapply startPartitionOffsetManager_ranked;
                              eassumption | reflexivity |].
    cbn [orb app guarded allowed rank permits needs_claim needs_offsetManager
           needs_consumer Nat.leb andb implb is_bind is_successful_claim
           is_opened].
    rewrite !orb_true_r. cbn [orb].
    apply (guarded_block 2); [eapply startPartitionConsumer_ranked; eassumption
                             | reflexivity |].
    rewrite C4, !orb_true_r.
    apply (guarded_block 3); [eapply dispatch_ranked; eassumption
                             | reflexivity |].
    cbn [orb app guarded allowed rank permits needs_claim needs_offsetManager
           needs_consumer Nat.leb andb implb is_bind is_successful_claim
           is_opened].
    apply (guarded_block 5); [apply drain_trace_ranked | reflexivity |].
    reflexivity.
Qed.

(** X19: [run] takes a step only with what the step needs.  Before any step
    between the start of the offset manager and the release of the claim the
    claim has succeeded; before any step between the start of the consumer and
    the close of the offset manager, the offset manager has been bound; before
    any step of the dispatch loop and before the close of the consumer, the
    consumer has been opened. *)
Theorem run_steps_are_guarded (pm : partitionManager) (rs : run_script)
    (pm' : partitionManager) (tr : trace) :
  run pm rs = Some (pm', tr) ->
  forall pre e post k,
    tr = pre ++ e :: post ->
    rank e = Some k ->
    (needs_claim k = true -> In (EClaimPartition None) pre)
    /\ (needs_offsetManager k = true ->
        exists h, In (EBindOffsetManager h) pre)
    /\ (needs_consumer k = true ->
        exists o, In (EConsumePartition o None) pre).
Proof.
  intros H pre e post k -> He. apply run_guarded in H.
  pose proof (guarded_prefix _ _ _ _ _ _ _ H He) as P.
  unfold permits in P. cbn [orb] in P.
  apply andb_prop in P as [P P3]. apply andb_prop in P as [P1 P2].
  split; [| split]; intros Hk.
  - rewrite Hk in P1. apply existsb_exists in P1 as [x [Hin Hx]].
    destruct x as [| [] | | | | | | | | | | | | | | | | | | | | |];
      try discriminate. exact Hin.
  - rewrite Hk in P2. apply existsb_exists in P2 as [x [Hin Hx]].
    destruct x; try discriminate. eauto.
  - rewrite Hk in P3. apply existsb_exists in P3 as [x [Hin Hx]].
    destruct x as [| | | | | | | | ? [] | | | | | | | | | | | | | |];
      try discriminate. eauto.
Qed.

Lemma run_steps_are_guarded_witness :
  In (EClaimPartition None)
    [EWatchPartitionOwner None None; EClaimPartition None]
  /\ (needs_offsetManager 1 = true ->
      exists h, In (EBindOffsetManager h)
                  [EWatchPartitionOwner None None; EClaimPartition None])
  /\ (needs_consumer 1 = true ->
      exists o, In (EConsumePartition o None)
                  [EWatchPartitionOwner None None; EClaimPartition None]).
Proof.
  destruct (run_steps_are_guarded pm_new rs_consumed _ _ eq_refl
              [EWatchPartitionOwner None None; EClaimPartition None]
              (EManagePartition None)
              [EBindOffsetManager 7%nat; EInitialOffset 41;
               EConsumePartition 42 None;
               EMessage {| msg_Offset := 42 |};
               EForwardMessage {| msg_Offset := 42 |};
               EStoreLastConsumed 42; EDying;
               EClosePartitionConsumer 9%nat None;
               EDrainOffsets 41 42; EDrainTimeout (60 * Second);
               ECloseOffsetManager 7%nat; EReleasePartition None; EDone]
              1%nat eq_refl eq_refl) as [Hc Hrest].
  split; [apply Hc; reflexivity | exact Hrest].
Defined.
